(** * dbdicom: the DICOM folder catalog ([DataBaseDicom], src/dbdicom/dbd.py)

    A shallow embedding of the class [DataBaseDicom]: the register (a pandas
    DataFrame indexed by relative file path), the staged commit and rollback
    of [close] and [restore], the attribute resolution of [_attributes], the
    entity copies, the two normalisation passes run by [read], and the
    assembly and writing of volumes.

    Python objects are mutated in place and exceptions leave every mutation
    made so far visible, so the methods live in a state monad over a world
    (the file system, the heap of [DataBaseDicom] objects, the stream of
    generated UIDs) whose state survives a raised exception. *)

From stdpp Require Import gmap strings list pretty sorting.

Local Open Scope string_scope.
Local Open Scope list_scope.

(** ** Values, labels and rows *)

(** A DICOM attribute value as the register and the attribute dictionaries
    hold it. *)
Inductive Value :=
  | VStr (s : string)
  | VInt (z : Z).

#[global] Instance Value_eq_dec : EqDecision Value.
Proof. solve_decision. Defined.

(** One element of an entity list: a plain string, or a tuple whose first
    component is the description (the source reads it as [label[0]]). *)
Inductive Label :=
  | Name (s : string)
  | Indexed (s : string) (i : nat).

#[global] Instance Label_eq_dec : EqDecision Label.
Proof. solve_decision. Defined.

(** [entity[0]] is the folder, then patient, study and series. *)
Definition Entity := list Label.

(** [x if isinstance(x, str) else x[0]] *)
Definition label_desc (l : Label) : string :=
  match l with
  | Name s => s
  | Indexed s _ => s
  end.

(** An in-memory dataset: attribute keyword to value. *)
Abbreviation Dataset := (gmap string Value).

(** One row of the register.  [relpath] is the index label.  A text cell
    holds what the dataset gave for the attribute, [None] included.  The
    number columns hold [-1] where the file carries no number: the source
    filters that value out before taking a maximum. *)
Record Row := mkRow {
  relpath : string;
  PatientID : option Value;
  PatientName : option Value;
  StudyInstanceUID : option Value;
  StudyDescription : option Value;
  StudyDate : option Value;
  SeriesInstanceUID : option Value;
  SeriesDescription : option Value;
  SeriesNumber : Z;
  SOPInstanceUID : option Value;
  InstanceNumber : Z;
  NumberOfFrames : option Z;
  SOPClassUID : option Value;
  removed : bool;
  created : bool
}.

#[global] Instance Row_eq_dec : EqDecision Row.
Proof. solve_decision. Defined.

Definition set_removed (b : bool) (r : Row) : Row :=
  mkRow (relpath r) (PatientID r) (PatientName r) (StudyInstanceUID r)
    (StudyDescription r) (StudyDate r) (SeriesInstanceUID r)
    (SeriesDescription r) (SeriesNumber r) (SOPInstanceUID r)
    (InstanceNumber r) (NumberOfFrames r) (SOPClassUID r) b (created r).

Definition set_created (b : bool) (r : Row) : Row :=
  mkRow (relpath r) (PatientID r) (PatientName r) (StudyInstanceUID r)
    (StudyDescription r) (StudyDate r) (SeriesInstanceUID r)
    (SeriesDescription r) (SeriesNumber r) (SOPInstanceUID r)
    (InstanceNumber r) (NumberOfFrames r) (SOPClassUID r) (removed r) b.

Definition drop_NumberOfFrames (r : Row) : Row :=
  mkRow (relpath r) (PatientID r) (PatientName r) (StudyInstanceUID r)
    (StudyDescription r) (StudyDate r) (SeriesInstanceUID r)
    (SeriesDescription r) (SeriesNumber r) (SOPInstanceUID r)
    (InstanceNumber r) None (SOPClassUID r) (removed r) (created r).

Definition drop_SOPClassUID (r : Row) : Row :=
  mkRow (relpath r) (PatientID r) (PatientName r) (StudyInstanceUID r)
    (StudyDescription r) (StudyDate r) (SeriesInstanceUID r)
    (SeriesDescription r) (SeriesNumber r) (SOPInstanceUID r)
    (InstanceNumber r) (NumberOfFrames r) None (removed r) (created r).

Abbreviation Register := (list Row).

(** [df.drop(index=labels, inplace=True)]: every row carrying one of the
    labels goes. *)
Definition drop_index (labels : list string) (reg : Register) : Register :=
  filter (λ r, relpath r ∉ labels) reg.

(** [df.loc[labels, 'created'] = b] and [df.loc[labels, 'removed'] = b] *)
Definition loc_set_created (labels : list string) (b : bool)
    (reg : Register) : Register :=
  (λ r, if decide (relpath r ∈ labels) then set_created b r else r) <$> reg.

Definition loc_set_removed (labels : list string) (b : bool)
    (reg : Register) : Register :=
  (λ r, if decide (relpath r ∈ labels) then set_removed b r else r) <$> reg.

(** [df.loc[labels]] *)
Definition loc_rows (labels : list string) (reg : Register) : Register :=
  filter (λ r, relpath r ∈ labels) reg.

(** ** Exceptions, files and the world *)

Inductive Exn :=
  | ValueError (msg : string)
  | UnboundLocalError (var : string)
  | IndexError
  | KeyError (key : string)
  | TypeError
  | FileNotFoundError (file : string).

#[global] Instance Exn_eq_dec : EqDecision Exn.
Proof. solve_decision. Defined.

(** What a path of the file system holds: a DICOM instance, the pickled
    register ([None] when the pickle cannot be read back), or anything
    else. *)
Inductive File :=
  | FDicom (ds : Dataset)
  | FPickle (reg : option Register)
  | FOther.

Abbreviation FileSystem := (list (string * File)).

Fixpoint fs_lookup (p : string) (fs : FileSystem) : option File :=
  match fs with
  | [] => None
  | (q, f) :: fs' => if decide (q = p) then Some f else fs_lookup p fs'
  end.

(** [os.path.exists] *)
Definition fs_exists (p : string) (fs : FileSystem) : bool :=
  bool_decide (is_Some (fs_lookup p fs)).

Definition fs_remove (p : string) (fs : FileSystem) : FileSystem :=
  filter (λ e, e.1 ≠ p) fs.

Definition fs_write (p : string) (f : File) (fs : FileSystem) : FileSystem :=
  fs_remove p fs ++ [(p, f)].

(** [os.path.join] *)
Definition path_join (a b : string) : string := a +:+ "/" +:+ b.

(** A [DataBaseDicom] object. *)
Record DB := mkDB {
  path : string;
  register : Register
}.

Record World := mkWorld {
  fs : FileSystem;
  heap : list DB;
  next_uid : nat
}.

(** ** The monad of methods *)

Definition M (A : Type) : Type := World → (Exn + A) * World.

#[global] Instance M_ret : MRet M := λ A x w, (inr x, w).

#[global] Instance M_bind : MBind M := λ A B f c w,
  match c w with
  | (inl e, w') => (inl e, w')
  | (inr x, w') => f x w'
  end.

Definition raise {A} (e : Exn) : M A := λ w, (inl e, w).

(** [try: body except: handler] with a bare [except]. *)
Definition try_except {A} (body handler : M A) : M A := λ w,
  match body w with
  | (inl _, w') => handler w'
  | ok => ok
  end.

Definition lift {A} (r : Exn + A) : M A := λ w, (r, w).

Definition get_fs : M FileSystem := λ w, (inr (fs w), w).

Definition put_fs (f : FileSystem) : M unit := λ w,
  (inr tt, mkWorld f (heap w) (next_uid w)).

Definition get_db (self : nat) : M DB := λ w,
  match heap w !! self with
  | Some db => (inr db, w)
  | None => (inl TypeError, w)
  end.

Definition get_register (self : nat) : M Register :=
  db ← get_db self; mret (register db).

Definition get_path (self : nat) : M string :=
  db ← get_db self; mret (path db).

(** [self.register = reg] *)
Definition set_register (self : nat) (reg : Register) : M unit := λ w,
  match heap w !! self with
  | Some db =>
      (inr tt, mkWorld (fs w) (<[self := mkDB (path db) reg]> (heap w))
                 (next_uid w))
  | None => (inl TypeError, w)
  end.

(** Allocation of a new object. *)
Definition new_db (p : string) : M nat := λ w,
  (inr (length (heap w)),
   mkWorld (fs w) (heap w ++ [mkDB p []]) (next_uid w)).

(** [dbdataset.new_uid()] *)
Definition uid_of_nat (n : nat) : string := "2.25." +:+ pretty n.

Definition new_uid : M string := λ w,
  (inr (uid_of_nat (next_uid w)), mkWorld (fs w) (heap w) (S (next_uid w))).

(** [for x in l: body(x)] *)
Fixpoint for_each {A} (l : list A) (body : A → M unit) : M unit :=
  match l with
  | [] => mret tt
  | x :: l' => body x;; for_each l' body
  end.

(** [os.remove] *)
Definition os_remove (p : string) : M unit :=
  f ← get_fs;
  if fs_exists p f then put_fs (fs_remove p f)
  else raise (FileNotFoundError p).

(** [dbdataset.read_dataset] *)
Definition read_dataset (p : string) : M Dataset :=
  f ← get_fs;
  match fs_lookup p f with
  | Some (FDicom ds) => mret ds
  | _ => raise (FileNotFoundError p)
  end.

(** [dbdataset.write] *)
Definition write_dataset_file (ds : Dataset) (p : string) : M unit :=
  f ← get_fs; put_fs (fs_write p (FDicom ds) f).

(** ** Opening, closing and restoring *)

(** [os.path.basename(os.path.normpath(p))]: the text after the last
    separator, trailing separators dropped. *)
Fixpoint split_on_slash (s : string) (cur : string) : list string :=
  match s with
  | EmptyString => [cur]
  | String c s' =>
      if decide (String c "" = "/") then cur :: split_on_slash s' ""
      else split_on_slash s' (cur +:+ String c "")
  end.

Definition basename (p : string) : string :=
  match reverse (filter (λ x, x ≠ "") (split_on_slash p "")) with
  | x :: _ => x
  | [] => ""
  end.

Definition _register_file (self : nat) : M string :=
  p ← get_path self;
  mret (path_join p (basename p +:+ ".pkl")).

(** [close]: lines 63-88. *)
Definition close (self : nat) : M unit :=
  reg ← get_register self;
  p ← get_path self;
  let created_ix :=
    relpath <$> filter (λ r, created r && negb (removed r) = true) reg in
  let removed_ix := relpath <$> filter (λ r, removed r = true) reg in
  for_each removed_ix (λ index,
    let file := path_join p index in
    f ← get_fs;
    if fs_exists file f then os_remove file else mret tt);;
  set_register self (drop_index removed_ix reg);;
  reg1 ← get_register self;
  set_register self (loc_set_created created_ix false reg1);;
  file ← _register_file self;
  reg2 ← get_register self;
  f ← get_fs;
  put_fs (fs_write file (FPickle (Some reg2)) f).

(** [restore]: lines 91-114. *)
Definition restore (self : nat) : M unit :=
  reg ← get_register self;
  p ← get_path self;
  let created_ix := relpath <$> filter (λ r, created r = true) reg in
  let removed_ix :=
    relpath <$> filter (λ r, removed r && negb (created r) = true) reg in
  for_each created_ix (λ index,
    let file := path_join p index in
    f ← get_fs;
    if fs_exists file f then os_remove file else mret tt);;
  set_register self (drop_index created_ix reg);;
  reg1 ← get_register self;
  set_register self (loc_set_removed removed_ix false reg1);;
  file ← _register_file self;
  reg2 ← get_register self;
  f ← get_fs;
  put_fs (fs_write file (FPickle (Some reg2)) f).

(** ** Collaborators

    What [dbd.py] calls and does not define: the register queries of
    [dbdicom.register], the attribute lists of [dbdicom.const], the
    multiframe converter, the volume primitives of [vreg] and the clock.
    The methods are written over any implementation of them. *)

Class Services := {
  (** [register.files(df, entity)]: full paths. *)
  register_files : Register → Entity → Exn + list string;
  (** [register.index(df, entity)]: index labels. *)
  register_index : Register → Entity → Exn + list string;
  (** [register.uid(df, entity)] *)
  register_uid : Register → Entity → Exn + string;
  (** [register.patients(df, path)], [register.studies(df, patient)],
      [register.series(df, study)], without filter. *)
  register_patients : Register → string → Exn + list Entity;
  register_studies : Register → Entity → Exn + list Entity;
  register_series : Register → Entity → Exn + list Entity;
  (** [register.append(df, parent, child_label)]: the entity to create. *)
  register_append : Register → Entity → Label → Exn + Entity;
  (** [const.PATIENT_MODULE], [const.STUDY_MODULE], [const.SERIES_MODULE] *)
  PATIENT_MODULE : list string;
  STUDY_MODULE : list string;
  SERIES_MODULE : list string;
  (** [datetime.today().strftime('%Y%m%d')] *)
  today : string;
  (** [dcm4che.split_multiframe(filepath)]: the files it wrote. *)
  split_multiframe : string → FileSystem → list string * FileSystem;
  (** [vreg] volumes. *)
  Volume : Type;
  vol_ndim : Volume → nat;
  vol_split : Volume → list Volume;
  vol_separate : Volume → list Volume;
  vol_dims : Volume → list string;
  vol_coords : Volume → list Value;
  vol_join : list nat → list Volume → Volume;
  vol_set_coords : list (list Z) → Volume → Volume;
  vol_set_dims : list string → Volume → Volume;
  (** [dbdataset.new_dataset], [dbdataset.set_volume], [dbdataset.volume] *)
  new_dataset : string → Dataset;
  set_volume : Dataset → Volume → bool → Dataset;
  dataset_volume : Dataset → bool → Volume
}.

(** ** Pure helpers on registers and datasets *)

(** [np.amax] of a non-empty array. *)
Definition amax (l : list Z) : Z :=
  match l with
  | [] => 0%Z
  | x :: l' => foldl Z.max x l'
  end.

(** The body shared by [_max_series_number] and [_max_instance_number]:
    [n = n[n != -1]; max_number = 0 if n.size == 0 else np.amax(n)]. *)
Definition max_number (values : list Z) : Z :=
  let n := filter (λ z, z ≠ (-1)%Z) values in
  if decide (length n = 0) then 0%Z else amax n.

Definition max_series_number (reg : Register) (study_uid : string) : Z :=
  let df := filter (λ r, StudyInstanceUID r = Some (VStr study_uid)
                         ∧ removed r = false) reg in
  max_number (SeriesNumber <$> df).

Definition max_instance_number (reg : Register) (series_uid : Value) : Z :=
  let df := filter (λ r, SeriesInstanceUID r = Some series_uid
                         ∧ removed r = false) reg in
  max_number (InstanceNumber <$> df).

(** [dbdataset.get_values(ds, attributes)] *)
Definition get_values (ds : Dataset) (attributes : list string)
    : list (option Value) :=
  (λ a, ds !! a) <$> attributes.

(** [dbdataset.set_values(ds, keys, values)]: the dictionary wins. *)
Definition set_values (ds : Dataset) (attr : gmap string Value) : Dataset :=
  attr ∪ ds.

(** [{attr[i]: vals[i] for i in range(len(attr)) if vals[i] is not None}] *)
Definition dict_of (attr : list string) (vals : list (option Value))
    : gmap string Value :=
  foldl (λ m kv, match kv.2 with
                 | Some v => <[kv.1 := v]> m
                 | None => m
                 end) ∅ (zip attr vals).

Definition int_column (ds : Dataset) (k : string) : Z :=
  match ds !! k with
  | Some (VInt z) => z
  | _ => (-1)%Z
  end.

(** Modelled from the spec: the row that [dbdataset.get_values(ds,
    register.columns)] and [dbdataset.read_dataframe] build for one file,
    which are not in the sources at hand.  The columns are those of the
    CatalogRecord of the data model; a number the file does not carry reads
    [-1]. *)
Definition row_of_dataset (rel : string) (ds : Dataset) : Row :=
  mkRow rel (ds !! "PatientID") (ds !! "PatientName")
    (ds !! "StudyInstanceUID") (ds !! "StudyDescription")
    (ds !! "StudyDate") (ds !! "SeriesInstanceUID")
    (ds !! "SeriesDescription") (int_column ds "SeriesNumber")
    (ds !! "SOPInstanceUID") (int_column ds "InstanceNumber")
    (match ds !! "NumberOfFrames" with Some (VInt z) => Some z | _ => None end)
    (ds !! "SOPClassUID")
    false false.

(** The text of [full] after the folder [root] and its separator. *)
Definition relative_to (root full : string) : string :=
  let pre := root +:+ "/" in
  String.substring (String.length pre)
    (String.length full - String.length pre) full.

(** [filetools.all_files(path)] *)
Definition all_files (root : string) (f : FileSystem) : list string :=
  fst <$> filter (λ e, String.prefix (root +:+ "/") e.1 = true) f.

(** Modelled from the spec: [dbdataset.read_dataframe(files, columns,
    path)], one record per instance file, keyed by its path relative to the
    folder; what is not an instance is skipped. *)
Definition read_dataframe (files : list string) (root : string)
    (f : FileSystem) : Register :=
  omap (λ p, match fs_lookup p f with
             | Some (FDicom ds) => Some (row_of_dataset (relative_to root p) ds)
             | _ => None
             end) files.

(** [d[key] = row] on the dictionary of new instances, which keeps its
    insertion order. *)
Fixpoint dict_set (key : string) (row : Row) (d : list Row) : list Row :=
  match d with
  | [] => [row]
  | r :: d' =>
      if decide (relpath r = key) then row :: d' else r :: dict_set key row d'
  end.

(** [Series.unique()]: the distinct values in order of first appearance. *)
Fixpoint unique_from {A} `{EqDecision A} (seen l : list A) : list A :=
  match l with
  | [] => []
  | x :: l' =>
      if decide (x ∈ seen) then unique_from seen l'
      else x :: unique_from (x :: seen) l'
  end.

Definition unique {A} `{EqDecision A} (l : list A) : list A :=
  unique_from [] l.

(** [list(enumerate(l))] *)
Definition enumerate {A} (l : list A) : list (nat * A) :=
  zip (seq 0 (length l)) l.

(** [entity[0]], [entity[-1]], [entity[:-1]] *)
Definition first_label (e : Entity) : Exn + Label :=
  match e with
  | l :: _ => inr l
  | [] => inl IndexError
  end.

Definition last_label (e : Entity) : Exn + Label :=
  match last e with
  | Some l => inr l
  | None => inl IndexError
  end.

Definition but_last (e : Entity) : Entity := removelast e.

(** The folder named by a label, when the label is a string. *)
Definition folder_of (l : Label) : Exn + string :=
  match l with
  | Name s => inr s
  | Indexed _ _ => inl TypeError
  end.

(** [files[0]] *)
Definition first_file (files : list string) : Exn + string :=
  match files with
  | f :: _ => inr f
  | [] => inl IndexError
  end.

(** A loop that carries the values its body rebinds or mutates. *)
Fixpoint fold_m {A S} (l : list A) (s : S) (body : S → A → M S) : M S :=
  match l with
  | [] => mret s
  | x :: l' => s' ← body s x; fold_m l' s' body
  end.

(** [try: body except: handler else: orelse] *)
Definition try_except_else {A B} (body : M A) (handler : M B)
    (orelse : A → M B) : M B := λ w,
  match body w with
  | (inl _, w') => handler w'
  | (inr x, w') => orelse x w'
  end.

(** Reading a local variable that may not have been assigned yet. *)
Definition read_local {A} (name : string) (v : option A) : M A :=
  match v with
  | Some x => mret x
  | None => raise (UnboundLocalError name)
  end.

(** ** The methods of [DataBaseDicom] *)

Section Methods.
Context `{Services}.

(** *** Attribute resolution: lines 555-635 *)

Definition _max_series_number (self : nat) (study_uid : string) : M Z :=
  reg ← get_register self;
  mret (max_series_number reg study_uid).

Definition _max_instance_number (self : nat) (series_uid : Value) : M Z :=
  reg ← get_register self;
  mret (max_instance_number reg series_uid).

(** The body of the [try] of the three methods that follow: the values of
    the attributes [attr] in the first file of the entity. *)
Definition from_first_file (self : nat) (entity : Entity)
    (attr : list string) : M (list string * list (option Value)) :=
  reg ← get_register self;
  files ← lift (register_files reg entity);
  f0 ← lift (first_file files);
  ds ← read_dataset f0;
  mret (attr, get_values ds attr).

Definition _patient_attributes (self : nat) (patient : Entity)
    : M (gmap string Value) :=
  av ← try_except
    (from_first_file self patient PATIENT_MODULE)
    (patient_id ← new_uid;
     l ← lift (last_label patient);
     mret (["PatientID"; "PatientName"],
           [Some (VStr patient_id); Some (VStr (label_desc l))]));
  mret (dict_of av.1 av.2).

Definition _study_attributes (self : nat) (study : Entity)
    : M (gmap string Value) :=
  patient_attr ← _patient_attributes self (take 2 study);
  av ← try_except
    (from_first_file self study STUDY_MODULE)
    (study_id ← new_uid;
     l ← lift (last_label study);
     mret (["StudyInstanceUID"; "StudyDescription"; "StudyDate"],
           [Some (VStr study_id); Some (VStr (label_desc l));
            Some (VStr today)]));
  mret (dict_of av.1 av.2 ∪ patient_attr).

Definition _series_attributes (self : nat) (series : Entity)
    : M (gmap string Value) :=
  study_attr ← _study_attributes self (take 3 series);
  av ← try_except
    (from_first_file self series SERIES_MODULE)
    (series_number ← try_except_else
       (reg ← get_register self;
        lift (register_uid reg (but_last series)))
       (mret 1%Z)
       (λ study_uid, n ← _max_series_number self study_uid;
                     mret (1 + n)%Z);
     series_id ← new_uid;
     l ← lift (last_label series);
     mret (["SeriesInstanceUID"; "SeriesDescription"; "SeriesNumber"],
           [Some (VStr series_id); Some (VStr (label_desc l));
            Some (VInt series_number)]));
  mret (dict_of av.1 av.2 ∪ study_attr).

(** [_attributes] returns [None] for any other length. *)
Definition _attributes (self : nat) (entity : Entity)
    : M (option (gmap string Value)) :=
  if decide (length entity = 4) then
    a ← _series_attributes self entity; mret (Some a)
  else if decide (length entity = 3) then
    a ← _study_attributes self entity; mret (Some a)
  else if decide (length entity = 2) then
    a ← _patient_attributes self entity; mret (Some a)
  else mret None.

(** *** Writing instances: lines 540-552 and 638-655 *)

(** The dataset and the dictionary of attributes are mutated in place, so
    both are handed back with the dictionary of new instances. *)
Definition _write_dataset (self : nat) (ds : Dataset)
    (attr : gmap string Value) (instance_nr : Z) (new_instances : list Row)
    : M (Dataset * gmap string Value * list Row) :=
  sop ← new_uid;
  let attr1 := <["SOPInstanceUID" := VStr sop]> attr in
  let attr2 := <["InstanceNumber" := VInt instance_nr]> attr1 in
  let ds' := set_values ds attr2 in
  u ← new_uid;
  let rel_path := path_join "dbdicom" (u +:+ ".dcm") in
  p ← get_path self;
  write_dataset_file ds' (path_join p rel_path);;
  mret (ds', attr2, dict_set rel_path (row_of_dataset rel_path ds')
                      new_instances).

Definition new_rows (new_instances : list Row) : list Row :=
  (λ r, set_created true (set_removed false r)) <$> new_instances.

Definition _update_register (self : nat) (new_instances : list Row)
    : M unit :=
  reg ← get_register self;
  set_register self (reg ++ new_rows new_instances).

(** [attr = self._attributes(e); n = self._max_instance_number(
    attr['SeriesInstanceUID'])] *)
Definition destination (self : nat) (e : Entity)
    : M (gmap string Value * Z) :=
  oattr ← _attributes self e;
  attr ← lift (match oattr with Some a => inr a | None => inl TypeError end);
  uid ← lift (match attr !! "SeriesInstanceUID" with
              | Some v => inr v
              | None => inl (KeyError "SeriesInstanceUID")
              end);
  n ← _max_instance_number self uid;
  mret (attr, n).

Definition _files_to_series (self : nat) (files : list string)
    (to_series : Entity) : M unit :=
  an ← destination self to_series;
  acc ← fold_m (enumerate files) (an.1, [])
    (λ acc i_f,
       ds ← read_dataset i_f.2;
       r ← _write_dataset self ds acc.1 (an.2 + 1 + Z.of_nat i_f.1)%Z acc.2;
       mret (r.1.2, r.2));
  _update_register self acc.2.

(** *** Queries: lines 131-208, called without filter *)

Definition patients (self : nat) : M (list Entity) :=
  reg ← get_register self;
  p ← get_path self;
  lift (register_patients reg p).

(** [studies(entity)] with [entity] a folder ([inl]) or a list ([inr]). *)
Definition studies (self : nat) (entity : string + Entity)
    : M (list Entity) :=
  match entity with
  | inl _ =>
      ps ← patients self;
      fold_m ps [] (λ acc patient,
        reg ← get_register self;
        l ← lift (register_studies reg patient);
        mret (acc ++ l)%list)
  | inr e =>
      reg ← get_register self;
      lift (register_studies reg e)
  end.

Definition series (self : nat) (entity : string + Entity)
    : M (list Entity) :=
  let of_studies (sts : list Entity) :=
    fold_m sts [] (λ acc study,
      reg ← get_register self;
      l ← lift (register_series reg study);
      mret (acc ++ l)%list) in
  match entity with
  | inl p => sts ← studies self (inl p); of_studies sts
  | inr e =>
      if decide (length e = 2) then
        sts ← studies self (inr e); of_studies sts
      else
        reg ← get_register self;
        lift (register_series reg e)
  end.

(** *** The normalisation passes: lines 663-717 *)

(** The body of the loop of [_multiframe_to_singleframe], lines 674-685. *)
Definition multiframe_body (self : nat) (relpath : string) : M unit :=
  p ← get_path self;
  let filepath := path_join p relpath in
  f ← get_fs;
  let conv := split_multiframe filepath f in
  put_fs conv.2;;
  (if decide (conv.1 ≠ []) then
     reg ← get_register self;
     f' ← get_fs;
     set_register self (reg ++ read_dataframe conv.1 p f');;
     os_remove filepath
   else mret tt);;
  reg ← get_register self;
  set_register self (drop_index [relpath] reg).

(** The arguments of [tqdm] are evaluated before the loop starts, and
    [desc] reads the loop variable [relpath], not assigned yet. *)
Definition _multiframe_to_singleframe (self : nat) : M unit :=
  reg ← get_register self;
  let multiframe := filter (λ r, NumberOfFrames r ≠ None) reg in
  (if decide (length multiframe ≠ 0) then
     let iterable := relpath <$> multiframe in
     relpath0 ← read_local "relpath" (None : option string);
     let desc := "Converting multiframe file " +:+ relpath0 in
     for_each iterable (multiframe_body self)
   else mret tt);;
  reg' ← get_register self;
  set_register self (drop_NumberOfFrames <$> reg').

(** [series[:-1] + [desc + f' [{i+1}]']] with [desc = series[0]], the
    value [series[-1] if isinstance(series, str) else series[0]] takes for
    a list. *)
Definition split_label (desc : string) (i : nat) : Label :=
  Name (desc +:+ " [" +:+ pretty (i + 1) +:+ "]").

Definition _split_series (self : nat) : M unit :=
  p ← get_path self;
  all_series ← series self (inl p);
  for_each all_series (λ series,
    reg ← get_register self;
    series_index ← lift (register_index reg series);
    let df_series := loc_rows series_index reg in
    let sop_classes := unique (SOPClassUID <$> df_series) in
    if decide (1 < length sop_classes) then
      l0 ← lift (first_label series);
      desc ← lift (folder_of l0);
      for_each (enumerate (drop 1 sop_classes)) (λ i_c,
        let df_sop_class :=
          filter (λ r, SOPClassUID r = i_c.2) df_series in
        let relpaths : list string := relpath <$> df_sop_class in
        let sop_class_files : list string := path_join p <$> relpaths in
        let sop_class_series :=
          (but_last series ++ [split_label desc i_c.1])%list in
        _files_to_series self sop_class_files sop_class_series;;
        (* [self.register.drop(relpaths)] builds a frame that is thrown
           away: the register keeps the rows. *)
        reg1 ← get_register self;
        let _discarded := drop_index relpaths reg1 in
        for_each sop_class_files os_remove)
    else mret tt);;
  reg ← get_register self;
  set_register self (drop_SOPClassUID <$> reg).

(** *** Construction: lines 26-60

    Directories are not part of the file system of the model: the
    [os.makedirs] of a folder that does not exist yet leaves no trace. *)

Definition read (self : nat) : M unit :=
  p ← get_path self;
  f ← get_fs;
  set_register self (read_dataframe (all_files p f) p f);;
  _multiframe_to_singleframe self;;
  _split_series self.

Definition DataBaseDicom (p : string) : M nat :=
  self ← new_db p;
  file ← _register_file self;
  f ← get_fs;
  (if fs_exists file f then
     try_except
       (match fs_lookup file f with
        | Some (FPickle (Some reg)) => set_register self reg
        | _ => raise (ValueError "unpickling")
        end)
       (os_remove file;; read self)
   else read self);;
  mret self.

(** *** Copy, delete and move: lines 441-536 *)

Definition _copy_series (self : nat) (from_series to_series : Entity)
    : M unit :=
  reg ← get_register self;
  from_series_files ← lift (register_files reg from_series);
  t0 ← lift (first_label to_series);
  f0 ← lift (first_label from_series);
  if decide (t0 = f0) then
    _files_to_series self from_series_files to_series
  else
    root ← lift (folder_of t0);
    mgr ← DataBaseDicom root;
    _files_to_series mgr from_series_files to_series;;
    close mgr.

Definition _copy_study (self : nat) (from_study to_study : Entity)
    : M unit :=
  reg ← get_register self;
  from_study_series ← lift (register_series reg from_study);
  for_each from_study_series (λ from_series,
    t0 ← lift (first_label to_study);
    f0 ← lift (first_label from_study);
    l ← lift (last_label from_series);
    to_series ←
      (if decide (t0 = f0) then
         reg ← get_register self;
         lift (register_append reg to_study l)
       else
         root ← lift (folder_of t0);
         mgr ← DataBaseDicom root;
         reg ← get_register mgr;
         lift (register_append reg to_study l));
    _copy_series self from_series to_series).

(** [to_study] is a local of [_copy_patient]; the loop carries it, unbound
    until its first assignment. *)
Definition _copy_patient (self : nat) (from_patient to_patient : Entity)
    : M unit :=
  reg ← get_register self;
  from_patient_studies ← lift (register_studies reg from_patient);
  fold_m from_patient_studies (None : option Entity)
    (λ to_study from_study,
       t0 ← lift (first_label to_patient);
       f0 ← lift (first_label from_patient);
       to_study' ←
         (if decide (t0 = f0) then
            reg ← get_register self;
            l ← lift (last_label from_study);
            lift (register_append reg to_patient l)
          else
            ts ← read_local "to_study" to_study;
            ts0 ← lift (first_label ts);
            root ← lift (folder_of ts0);
            mgr ← DataBaseDicom root;
            reg ← get_register mgr;
            l ← lift (last_label from_study);
            lift (register_append reg to_patient l));
       _copy_study self from_study to_study';;
       mret (Some to_study'));;
  mret tt.

Definition copy (self : nat) (from_entity to_entity : Entity) : M unit :=
  if decide (length from_entity = 4) then
    if decide (length to_entity ≠ 4) then
      raise (ValueError "is not a series (needs 4 elements)")
    else _copy_series self from_entity to_entity
  else if decide (length from_entity = 3) then
    if decide (length to_entity ≠ 3) then
      raise (ValueError "is not a study (needs 3 elements)")
    else _copy_study self from_entity to_entity
  else if decide (length from_entity = 2) then
    if decide (length to_entity ≠ 2) then
      raise (ValueError "is not a patient (needs 2 elements)")
    else _copy_patient self from_entity to_entity
  else raise (ValueError "Cannot copy").

Definition delete (self : nat) (entity : Entity) : M unit :=
  reg ← get_register self;
  index ← lift (register_index reg entity);
  set_register self (loc_set_removed index true reg).

Definition move (self : nat) (from_entity to_entity : Entity) : M unit :=
  copy self from_entity to_entity;;
  delete self from_entity.

End Methods.

(** ** The mesh of coordinates *)

(** The array of coordinates after meshing, [coords[d][k][j]]: dimension
    [d], index [k] along the slice axis, and [j] running over every
    combination of the other dimensions in row-major order. *)
Record Mesh := mkMesh {
  coords : list (list (list Z));
  shape : list nat;
  inds : list (list nat)
}.

(** The sorted distinct values seen along dimension [d]. *)
Definition axis_values (tuples : list (list Z)) (d : nat) : list Z :=
  merge_sort Z.le (remove_dups ((λ t, nth d t 0%Z) <$> tuples)).

(** Every combination of one value per axis, the last axis running
    fastest. *)
Fixpoint cartesian (axes : list (list Z)) : list (list Z) :=
  match axes with
  | [] => [[]]
  | a :: rest => concat ((λ x, (λ t, x :: t) <$> cartesian rest) <$> a)
  end.

(** The cells of the grid, one row per value of the first axis. *)
Definition mesh_cells (axes : list (list Z)) : list (list (list Z)) :=
  match axes with
  | [] => []
  | a :: rest => (λ x, (λ t, x :: t) <$> cartesian rest) <$> a
  end.

Definition index_of (cell : list Z) (tuples : list (list Z)) : option nat :=
  fst <$> list_find (λ t, t = cell) tuples.

Definition incomplete_grid : Exn := ValueError "Improper dimensions".

Definition geometry_inconsistency : Exn :=
  ValueError "Not all slices have the same coordinates".

(** Modelled from the spec: [dbdicom.utils.arrays.meshvals], which is not in
    the sources at hand.  Per axis the sorted distinct values, the grid of
    their Cartesian product, each slice placed at the cell of its tuple; a
    number of slices other than the number of cells, or a cell left without
    slice, is an incomplete grid.  [ndims] is the number of dimensions. *)
Definition meshvals (ndims : nat) (tuples : list (list Z)) : Exn + Mesh :=
  let axes : list (list Z) := axis_values tuples <$> seq 0 ndims in
  let cells := mesh_cells axes in
  if decide (length tuples ≠ length (concat cells)) then inl incomplete_grid
  else
    match mapM (M := option) (mapM (M := option) (λ c, index_of c tuples))
            cells with
    | None => inl incomplete_grid
    | Some placed =>
        inr (mkMesh
               ((λ d, (λ row : list nat,
                         (λ i, nth d (nth i tuples []) 0%Z) <$> row)
                        <$> placed) <$> seq 0 ndims)
               (length <$> axes)
               placed)
    end.

(** [coords[1:, k, ...]] *)
Definition slab (m : Mesh) (k : nat) : list (list Z) :=
  (λ cd, nth k cd []) <$> drop 1 (coords m).

(** [coords[0, :, j]]: the slice positions at the combination [j] of the
    other dimensions. *)
Definition spatial_vector (m : Mesh) (j : nat) : list Z :=
  (λ row, nth j row 0%Z) <$> nth 0 (coords m) [].

(** The number of combinations of the dimensions after the first. *)
Definition pages (m : Mesh) : nat := foldr Nat.mul 1 (drop 1 (shape m)).

Section Volumes.
Context `{Services}.

(** [dbdataset.set_value(ds, keys, values)] *)
Definition set_value (ds : Dataset) (keys : list string) (vals : list Value)
    : Dataset :=
  foldl (λ d kv, <[kv.1 := kv.2]> d) ds (zip keys vals).

(** The coordinates of one slice as numbers. *)
Definition coordinates (vals : list (option Value)) : Exn + list Z :=
  match mapM (M := option)
          (λ v, match v with Some (VInt z) => Some z | _ => None end) vals
  with
  | Some t => inr t
  | None => inl TypeError
  end.

(** Lines 243-265 of [volume]: mesh, check, join. *)
Definition assemble (dims : list string) (tuples : list (list Z))
    (volumes : list Volume) : Exn + Volume :=
  match tuples with
  | [] => inl (ValueError "need at least one array to stack")
  | _ =>
      match meshvals (length dims) tuples with
      | inl e => inl e
      | inr m =>
          let vols := omap (λ i, volumes !! i) (concat (inds m)) in
          let c0 := slab m 0 in
          if forallb (λ k, bool_decide (slab m (k + 1) = c0))
               (seq 0 (nth 0 (shape m) 0 - 1))
          then
            let vol := vol_join (shape m) vols in
            inr (if decide (3 < vol_ndim vol)
                 then vol_set_dims (drop 1 dims) (vol_set_coords c0 vol)
                 else vol)
          else inl geometry_inconsistency
      end
  end.

(** [volume]: lines 211-265. *)
Definition volume (self : nat) (series : Entity) (dims : list string)
    (multislice : bool) : M Volume :=
  let dims := "SliceLocation" :: dims in
  reg ← get_register self;
  files ← lift (register_files reg series);
  vv ← fold_m files ([], [])
    (λ acc f,
       ds ← read_dataset f;
       t ← lift (coordinates (get_values ds dims));
       mret ((acc.1 ++ [t])%list, (acc.2 ++ [dataset_volume ds multislice])%list));
  lift (assemble dims vv.1 vv.2).

(** [write_volume]: lines 268-312.  The branch of the volumes of more than
    three dimensions ends on [return self], before [_update_register]. *)
Definition write_volume (self : nat) (vol : Volume) (series : Entity)
    (ref : option Entity) (multislice : bool) : M unit :=
  ds ← match ref with
       | None => mret (new_dataset "MRImage")
       | Some ref =>
           r0 ← lift (first_label ref);
           s0 ← lift (first_label series);
           ref_mgr ← (if decide (r0 = s0) then mret self
                      else root ← lift (folder_of r0); DataBaseDicom root);
           reg ← get_register ref_mgr;
           files ← lift (register_files reg ref);
           f0 ← lift (first_file files);
           read_dataset f0
       end;
  an ← destination self series;
  if decide (vol_ndim vol = 3) then
    acc ← fold_m (enumerate (vol_split vol)) (ds, an.1, [])
      (λ acc i_sl,
         let ds1 := set_volume acc.1.1 i_sl.2 multislice in
         _write_dataset self ds1 acc.1.2 (an.2 + 1 + Z.of_nat i_sl.1)%Z acc.2);
    _update_register self acc.2
  else
    fold_m (vol_separate vol) (ds, an.1, [], 0)
      (λ acc vt,
         fold_m (vol_split vt) acc
           (λ acc sl,
              let ds1 := set_volume acc.1.1.1 sl multislice in
              let ds2 := set_value ds1 (vol_dims sl) (vol_coords sl) in
              r ← _write_dataset self ds2 acc.1.1.2
                    (an.2 + 1 + Z.of_nat acc.2)%Z acc.1.2;
              mret (r, S acc.2)));;
    mret tt.

End Volumes.

(** ** A reading of the collaborators

    Used to run the methods on concrete folders. *)

Definition label_matches (l : Label) (desc uid : option Value) : bool :=
  bool_decide (desc = Some (VStr (label_desc l))
               ∨ uid = Some (VStr (label_desc l))).

Definition row_matches (e : Entity) (r : Row) : bool :=
  match e with
  | [_] => true
  | [_; p] => label_matches p (PatientName r) (PatientID r)
  | [_; p; st] =>
      label_matches p (PatientName r) (PatientID r)
      && label_matches st (StudyDescription r) (StudyInstanceUID r)
  | [_; p; st; se] =>
      label_matches p (PatientName r) (PatientID r)
      && label_matches st (StudyDescription r) (StudyInstanceUID r)
      && label_matches se (SeriesDescription r) (SeriesInstanceUID r)
  | _ => false
  end.

Definition spec_rows (reg : Register) (e : Entity) : Register :=
  filter (λ r, removed r = false ∧ row_matches e r = true) reg.

(** Modelled from the spec: [register.index] and [register.files], which
    are not in the sources at hand (§4.1: all non-removed record paths whose
    hierarchical identifiers match the address prefix).  A label matches a
    record by the description or by the identifier of its level. *)
Definition spec_index (reg : Register) (e : Entity) : Exn + list string :=
  inr (relpath <$> spec_rows reg e).

Definition spec_files (reg : Register) (e : Entity) : Exn + list string :=
  match first_label e with
  | inl x => inl x
  | inr l =>
      match folder_of l with
      | inl x => inl x
      | inr root => inr (path_join root <$> (relpath <$> spec_rows reg e))
      end
  end.

(** Modelled from the spec: [register.uid], which is not in the sources at
    hand: the identifier of the entity an address names, an error when no
    record matches. *)
Definition spec_uid (reg : Register) (e : Entity) : Exn + string :=
  match spec_rows reg e with
  | r :: _ =>
      match (if decide (length e = 2) then PatientID r
             else if decide (length e = 3) then StudyInstanceUID r
             else SeriesInstanceUID r) with
      | Some (VStr u) => inr u
      | _ => inl (ValueError "no identifier")
      end
  | [] => inl (ValueError "not found")
  end.

(** Modelled from the spec: [register.patients], [register.studies] and
    [register.series], which are not in the sources at hand (§4.1: the
    distinct children of an address among the non-removed records). *)
Definition spec_children (column : Row → option Value) (reg : Register)
    (e : Entity) : Exn + list Entity :=
  inr ((λ d, e ++ [Name d])%list <$>
       unique (omap (λ r, match column r with
                          | Some (VStr d) => Some d
                          | _ => None
                          end) (spec_rows reg e))).

(** A volume as far as the methods look into it: the number of
    dimensions, the parts it splits into, and the metadata set on it. *)
#[warnings="-register-all"]
Inductive Grid :=
  | mkGrid (ndim : nat) (parts : list Grid) (gcoords : list (list Z))
      (gdims : list string).

Definition grid_ndim (g : Grid) : nat :=
  match g with mkGrid n _ _ _ => n end.

Definition grid_parts (g : Grid) : list Grid :=
  match g with mkGrid _ ps _ _ => ps end.

Definition spec_services : Services := {|
  register_files := spec_files;
  register_index := spec_index;
  register_uid := spec_uid;
  register_patients := λ reg root, spec_children PatientName reg [Name root];
  register_studies := spec_children StudyDescription;
  register_series := spec_children SeriesDescription;
  register_append := λ reg parent l,
    inr (parent ++ [Name (label_desc l)])%list;
  PATIENT_MODULE := ["PatientID"; "PatientName"];
  STUDY_MODULE := ["StudyInstanceUID"; "StudyDescription"; "StudyDate"];
  SERIES_MODULE := ["SeriesInstanceUID"; "SeriesDescription"; "SeriesNumber"];
  today := "20240101";
  split_multiframe := λ _ f, ([], f);
  Volume := Grid;
  vol_ndim := grid_ndim;
  vol_split := grid_parts;
  vol_separate := grid_parts;
  vol_dims := λ _, [];
  vol_coords := λ _, [];
  vol_join := λ shape vols, mkGrid (2 + length shape) vols [] [];
  vol_set_coords := λ c g,
    match g with mkGrid n ps _ d => mkGrid n ps c d end;
  vol_set_dims := λ d g,
    match g with mkGrid n ps c _ => mkGrid n ps c d end;
  new_dataset := λ _, ∅;
  set_volume := λ ds _ _, ds;
  dataset_volume := λ _ _, mkGrid 2 [] [] []
|}.

(** An instance file with the attributes the register indexes. *)
Definition instance_file (patient study study_uid series series_uid : string)
    (series_nr : Z) (sop_class : string) (instance_nr : Z) : File :=
  FDicom (list_to_map [
    ("PatientID", VStr patient); ("PatientName", VStr patient);
    ("StudyInstanceUID", VStr study_uid); ("StudyDescription", VStr study);
    ("SeriesInstanceUID", VStr series_uid);
    ("SeriesDescription", VStr series);
    ("SeriesNumber", VInt series_nr);
    ("SOPClassUID", VStr sop_class);
    ("InstanceNumber", VInt instance_nr)]).

(** ** Folders to run the methods on *)

(** A folder [db] with one patient, one study and one series of two
    instances, and the object opened on it. *)
Definition demo_fs : FileSystem := [
  ("db/a.dcm", instance_file "P" "St" "st1" "T1" "se1" 1 "MR" 1);
  ("db/b.dcm", instance_file "P" "St" "st1" "T1" "se1" 1 "MR" 2)].

Definition demo_register : Register :=
  drop_SOPClassUID <$> read_dataframe (all_files "db" demo_fs) "db" demo_fs.

Definition demo_world : World := mkWorld demo_fs [mkDB "db" demo_register] 0.

(** A volume of four dimensions: two volumes of two slices each. *)
Definition slice2d : Grid := mkGrid 2 [] [] [].

Definition volume3d : Grid := mkGrid 3 [slice2d; slice2d] [] [].

Definition volume4d : Grid := mkGrid 4 [volume3d; volume3d] [] [].

(** The register the methods leave. *)
Definition register_of (self : nat) (w : World) : Register :=
  default [] (register <$> heap w !! self).

(** ** Commit and rollback, in closed form *)

(** The files of the rows that [P] selects. *)
Definition files_of (p : string) (P : Row → Prop) `{∀ r, Decision (P r)}
    (reg : Register) : list string :=
  path_join p <$> (relpath <$> filter P reg).

(** The file system without the files listed. *)
Definition without (gone : list string) (f : FileSystem) : FileSystem :=
  filter (λ e, e.1 ∉ gone) f.

(** The register after [close]: the rows not removed, none of them
    created. *)
Definition committed (reg : Register) : Register :=
  set_created false <$> filter (λ r, removed r = false) reg.

(** The register after [restore]: the rows not created, the removed ones
    among them back. *)
Definition rolled_back (reg : Register) : Register :=
  (λ r, if removed r && negb (created r) then set_removed false r else r)
    <$> filter (λ r, created r = false) reg.

(** The register after a rollback as the specification words it: the rows
    with [created] and not [removed] go, the rows with [removed] and not
    [created] come back, every other row stays as it is. *)
Definition rolled_back_as_specified (reg : Register) : Register :=
  (λ r, if removed r && negb (created r) then set_removed false r else r)
    <$> filter (λ r, ¬ (created r = true ∧ removed r = false)) reg.

(** The path of the pickled register of a folder. *)
Definition snapshot_file (p : string) : string :=
  path_join p (basename p +:+ ".pkl").

(** A session on [demo_world]: the series is copied to a new series of the
    same study, then the copy is deleted. *)
Definition series_T1 : Entity := [Name "db"; Name "P"; Name "St"; Name "T1"].

Definition series_T2 : Entity := [Name "db"; Name "P"; Name "St"; Name "T2"].

Definition world_copied : World :=
  (@copy spec_services 0 series_T1 series_T2 demo_world).2.

Definition world_copy_deleted : World :=
  (@delete spec_services 0 series_T2 world_copied).2.

(** A folder [mixed] whose only series holds instances of two SOP
    classes. *)
Definition mixed_fs : FileSystem := [
  ("mixed/a.dcm", instance_file "P" "St" "st1" "T1" "se1" 1 "MR" 1);
  ("mixed/b.dcm", instance_file "P" "St" "st1" "T1" "se1" 1 "SEG" 2)].

Definition mixed_world : World := mkWorld mixed_fs [] 0.

(** A folder [frames] with one multiframe file, which the converter of
    [spec_services] fails to split, and the object whose register has
    just been read from it. *)
Definition frames_fs : FileSystem := [
  ("frames/m.dcm", FDicom (list_to_map [
     ("PatientID", VStr "P"); ("SeriesInstanceUID", VStr "se1");
     ("NumberOfFrames", VInt 12)]))].

Definition frames_world : World :=
  mkWorld frames_fs
    [mkDB "frames"
       (read_dataframe (all_files "frames" frames_fs) "frames" frames_fs)] 0.

(** ** Attribute resolution, in the words of the specification *)

(** The entity has no file: the query raises or finds none. *)
Definition no_files `{Services} (reg : Register) (e : Entity) : Prop :=
  ∀ f files, register_files reg e ≠ inr (f :: files).

(** The series numbers that the non-removed rows of a study carry; [-1]
    marks a row without number. *)
Definition series_numbers (reg : Register) (study_uid : string) : list Z :=
  filter (λ z, z ≠ (-1)%Z)
    (SeriesNumber <$>
     filter (λ r, StudyInstanceUID r = Some (VStr study_uid)
                  ∧ removed r = false) reg).

Definition maximum_of (m : Z) (l : list Z) : Prop :=
  m ∈ l ∧ ∀ z, z ∈ l → (z ≤ m)%Z.

(** The number of a new series: one more than the largest series number of
    the parent study, and 1 when the study has none or is not found. *)
Definition next_series_number `{Services} (reg : Register) (series : Entity)
    (n : Z) : Prop :=
  match register_uid reg (but_last series) with
  | inr study_uid =>
      (series_numbers reg study_uid = [] ∧ n = 1%Z)
      ∨ (∃ m, maximum_of m (series_numbers reg study_uid) ∧ n = (1 + m)%Z)
  | inl _ => n = 1%Z
  end.

(** A UID generated between two states of the world. *)
Definition fresh_uid (w w' : World) (v : option Value) : Prop :=
  ∃ k, next_uid w ≤ k < next_uid w' ∧ v = Some (VStr (uid_of_nat k)).

(** ** Sessions *)

(** The pair that must name one instance. *)
Definition pair_of (r : Row) : option Value * Z :=
  (SeriesInstanceUID r, InstanceNumber r).

(** The pairs are unique among the rows with [removed] unset. *)
Definition unique_pairs (reg : Register) : Prop :=
  NoDup (pair_of <$> filter (λ r, removed r = false) reg).

(** A register as [read] leaves it, and as [close] and [restore] leave it:
    no row created, no row removed. *)
Definition loaded (reg : Register) : Prop :=
  Forall (λ r, removed r = false ∧ created r = false) reg.

(** No instance number below [-1], the mark of a missing number. *)
Definition numbered (reg : Register) : Prop :=
  Forall (λ r, (-1 ≤ InstanceNumber r)%Z) reg.

(** What a session keeps: unique pairs among the rows not removed (the
    rows [close] keeps), unique pairs among the rows not created (the rows
    [restore] keeps), and numbers from [-1] up. *)
Definition session_inv (reg : Register) : Prop :=
  unique_pairs reg
  ∧ NoDup (pair_of <$> filter (λ r, created r = false) reg)
  ∧ numbered reg.

(** Rows appended by one writing call, all to the series [uid], all
    numbered above the largest number of the series before the call. *)
Definition appended_to (reg : Register) (new : list Row) : Prop :=
  Forall (λ r, removed r = false ∧ created r = true) new
  ∧ NoDup (InstanceNumber <$> new)
  ∧ ∃ uid, Forall (λ r, SeriesInstanceUID r = Some uid
                        ∧ (max_instance_number reg uid < InstanceNumber r)%Z)
             new.

Section Sessions.
Context `{Services}.

(** The mutating operations of a session. *)
Inductive Op :=
  | OpCopy (from_entity to_entity : Entity)
  | OpDelete (entity : Entity)
  | OpMove (from_entity to_entity : Entity)
  | OpWriteVolume (vol : Volume) (series : Entity) (ref : option Entity)
      (multislice : bool)
  | OpClose
  | OpRestore.

Definition run_op (self : nat) (op : Op) : M unit :=
  match op with
  | OpCopy from_entity to_entity => copy self from_entity to_entity
  | OpDelete entity => delete self entity
  | OpMove from_entity to_entity => move self from_entity to_entity
  | OpWriteVolume vol series ref multislice =>
      write_volume self vol series ref multislice
  | OpClose => close self
  | OpRestore => restore self
  end.

(** The world after the operations, one after the other; an operation that
    raises leaves what it did. *)
Definition run_session (self : nat) (ops : list Op) (w : World) : World :=
  foldl (λ w op, (run_op self op w).2) w ops.

End Sessions.

(** What the loops that write instances keep, before the turn of index [i]:
    the dictionary still names the series [uid], and the rows written so
    far are rows of that series numbered from [n + 1], each number once. *)
Definition numbering_inv (uid : Value) (n : Z) (i : nat)
    (attr : gmap string Value) (rows : list Row) : Prop :=
  attr !! "SeriesInstanceUID" = Some uid
  ∧ Forall (λ r, SeriesInstanceUID r = Some uid
                 ∧ (n < InstanceNumber r < n + 1 + Z.of_nat i)%Z) rows
  ∧ NoDup (InstanceNumber <$> rows).

(** [P] holds of the register of the object [self]. *)
Definition holds_on (self : nat) (P : Register → Prop) (w : World) : Prop :=
  ∃ db, heap w !! self = Some db ∧ P (register db).

(** The rows [new] are numbered above every row of their series that
    [reg] holds with [removed] unset. *)
Definition above_series (reg : Register) (new : list Row) : Prop :=
  ∀ r r', r ∈ new → r' ∈ reg → removed r' = false →
    SeriesInstanceUID r' = SeriesInstanceUID r →
    (InstanceNumber r' < InstanceNumber r)%Z.

(** A folder [dup] with two files of the same series and the same instance
    number. *)
Definition dup_fs : FileSystem := [
  ("dup/a.dcm", instance_file "P" "St" "st1" "T1" "se1" 1 "MR" 1);
  ("dup/b.dcm", instance_file "P" "St" "st1" "T1" "se1" 1 "MR" 1)].

Definition dup_world : World := mkWorld dup_fs [] 0.

(** A folder [neg] whose series [A] has an instance numbered [-5] and one
    numbered [-1], and whose series [B] has four instances; and the object
    opened on it. *)
Definition neg_fs : FileSystem := [
  ("neg/a1.dcm", instance_file "P" "St" "st1" "A" "sa" 1 "MR" (-5));
  ("neg/a2.dcm", instance_file "P" "St" "st1" "A" "sa" 1 "MR" (-1));
  ("neg/b1.dcm", instance_file "P" "St" "st1" "B" "sb" 2 "MR" 1);
  ("neg/b2.dcm", instance_file "P" "St" "st1" "B" "sb" 2 "MR" 2);
  ("neg/b3.dcm", instance_file "P" "St" "st1" "B" "sb" 2 "MR" 3);
  ("neg/b4.dcm", instance_file "P" "St" "st1" "B" "sb" 2 "MR" 4)].

Definition neg_world : World :=
  (@DataBaseDicom spec_services "neg" (mkWorld neg_fs [] 0)).2.

Definition neg_copied : World :=
  (@copy spec_services 0 [Name "neg"; Name "P"; Name "St"; Name "B"]
     [Name "neg"; Name "P"; Name "St"; Name "A"] neg_world).2.

(** ** Grids, in the words of the specification *)

(** The tuples form a complete Cartesian grid without duplicate: they are
    the combinations of the values seen along each axis, each combination
    once. *)
Definition complete_grid (ndims : nat) (tuples : list (list Z)) : Prop :=
  tuples ≡ₚ cartesian (axis_values tuples <$> seq 0 ndims).

(** Four slices on the grid of two positions and two values of one other
    dimension. *)
Definition grid_2x2 : list (list Z) :=
  [[0; 0]; [1; 0]; [0; 1]; [1; 1]]%Z.

(** The mesh of a complete grid of [S n] dimensions: the coordinates of a
    cell are those of its tuple. *)
Definition grid_mesh (n : nat) (tuples : list (list Z))
    (placed : list (list nat)) : Mesh :=
  mkMesh
    ((λ d, (λ crow : list (list Z), (λ c, nth d c 0%Z) <$> crow)
             <$> mesh_cells (axis_values tuples <$> seq 0 (S n)))
       <$> seq 0 (S n))
    (length <$> (axis_values tuples <$> seq 0 (S n))) placed.

(** ** Properties of computations *)

(** [preserves I c]: whatever [c] returns or raises, it leaves [I]. *)
Definition preserves {A} (I : World → Prop) (c : M A) : Prop :=
  ∀ w, I w → I (c w).2.

(** [returns I c Q]: from [I], a value [c] returns satisfies [Q]. *)
Definition returns {A} (I : World → Prop) (c : M A) (Q : A → Prop) : Prop :=
  ∀ w x w', I w → c w = (inr x, w') → Q x.

(** ** Staging and rolling back *)

Section Staging.
Context `{Services}.

(** The operations that stage changes: all but [close] and [restore]. *)
Definition staging (op : Op) : bool :=
  match op with
  | OpClose | OpRestore => false
  | _ => true
  end.

End Staging.

(** The rows of a register that are not of the session, none of them marked
    for removal. *)
Definition before_session (reg : Register) : Register :=
  set_removed false <$> filter (λ r, created r = false) reg.

(** The object [self] is the object of the folder [p], and [P] holds of its
    register. *)
Definition on_object (self : nat) (p : string) (P : Register → Prop)
    (w : World) : Prop :=
  ∃ db, heap w !! self = Some db ∧ path db = p ∧ P (register db).

(** ** The functions of [api.py]

    They carry the prefix [api_]: [copy], [delete], [move] and the others
    name the methods of the class. *)

Section Api.
Context `{Services}.

(** [open], lines 8-17. *)
Definition api_open (p : string) : M nat := DataBaseDicom p.

(** [open(entity[0])] *)
Definition open_root (entity : Entity) : M nat :=
  l ← lift (first_label entity);
  root ← lift (folder_of l);
  api_open root.

(** [patients], lines 42-59, called without filter. *)
Definition api_patients (p : string) : M (list Entity) :=
  dbd ← api_open p;
  patients dbd.

(** [studies], lines 62-90. *)
Definition api_studies (entity : string + Entity) : M (list Entity) :=
  match entity with
  | inl p => dbd ← api_open p; studies dbd (inl p)
  | inr e =>
      if decide (length e = 2) then
        dbd ← open_root e; studies dbd (inr e)
      else raise (ValueError "The path must be a folder or a 2-element list")
  end.

(** [series], lines 92-120. *)
Definition api_series (entity : string + Entity) : M (list Entity) :=
  match entity with
  | inl p => dbd ← api_open p; series dbd (inl p)
  | inr e =>
      if decide (length e ∈ [2; 3]) then
        dbd ← open_root e; series dbd (inr e)
      else raise (ValueError "the entity must be a database, patient or study")
  end.

(** [copy], lines 122-131. *)
Definition api_copy (from_entity to_entity : Entity) : M unit :=
  dbd ← open_root from_entity;
  copy dbd from_entity to_entity;;
  close dbd.

(** [delete], lines 134-142. *)
Definition api_delete (entity : Entity) : M unit :=
  dbd ← open_root entity;
  delete dbd entity;;
  close dbd.

(** [move], lines 145-154. *)
Definition api_move (from_entity to_entity : Entity) : M unit :=
  dbd ← open_root from_entity;
  copy dbd from_entity to_entity;;
  delete dbd from_entity;;
  close dbd.

(** [write_volume], lines 173-187. *)
Definition api_write_volume (vol : Volume) (series : Entity)
    (ref : option Entity) (multislice : bool) : M unit :=
  dbd ← open_root series;
  write_volume dbd vol series ref multislice;;
  close dbd.

(** The functions of [api.py] that change a folder. *)
Inductive ApiCall :=
  | CallCopy (from_entity to_entity : Entity)
  | CallDelete (entity : Entity)
  | CallMove (from_entity to_entity : Entity)
  | CallWriteVolume (vol : Volume) (series : Entity) (ref : option Entity)
      (multislice : bool).

Definition run_call (c : ApiCall) : M unit :=
  match c with
  | CallCopy from_entity to_entity => api_copy from_entity to_entity
  | CallDelete entity => api_delete entity
  | CallMove from_entity to_entity => api_move from_entity to_entity
  | CallWriteVolume vol series ref multislice =>
      api_write_volume vol series ref multislice
  end.

(** The entity whose first element names the folder the call opens. *)
Definition call_entity (c : ApiCall) : Entity :=
  match c with
  | CallCopy from_entity _ => from_entity
  | CallDelete entity => entity
  | CallMove from_entity _ => from_entity
  | CallWriteVolume _ series _ _ => series
  end.

End Api.

(** ** The files of new instances *)

(** The relative path [_write_dataset] gives the file of a new instance:
    [os.path.join('dbdicom', dbdataset.new_uid() + '.dcm')], for the UID
    drawn at the count [k]. *)
Definition instance_path (k : nat) : string :=
  path_join "dbdicom" (uid_of_nat k +:+ ".dcm").

(** Rows of files written before the count [n]. *)
Definition written_before (n : nat) (rows : list Row) : Prop :=
  Forall (λ r, ∃ k, k < n ∧ relpath r = instance_path k) rows.

(** The instance numbers from [n + 1] on, [count] of them, starting at the
    turn [i]. *)
Definition numbers_from (n : Z) (i count : nat) : list Z :=
  (λ j, (n + 1 + Z.of_nat j)%Z) <$> seq i count.

(** ** The distinct values of an attribute: lines 419-439 of [unique] *)

(** What [unique] gives for one attribute: [None], the value itself when
    there is one, the list of the values when there are more. *)
Inductive Unique :=
  | UNone
  | UOne (x : Value)
  | UMany (l : list Value).

(** [va.index(x)] *)
Definition list_index (x : Value) (va : list Value) : option nat :=
  fst <$> list_find (λ y, y = x) va.

(** [[x for i, x in enumerate(va) if i==va.index(x)]] *)
Definition first_occurrences (va : list Value) : list Value :=
  snd <$> filter (λ ix, list_index ix.2 va = Some ix.1) (enumerate va).

(** [v[:,a]], on the array [v] of one row per instance. *)
Definition column (a : nat) (v : list (list (option Value)))
    : list (option Value) :=
  (λ row, default None (row !! a)) <$> v.

Section Unique.

(** What [try: va.sort() except: pass] leaves of the list: sorted when the
    values compare, in some order when they do not. *)
Context (list_sort : list Value → list Value).

(** The body of the loop of [unique], lines 422-438. *)
Definition unique_column (va : list (option Value)) : Unique :=
  let va := omap id va in
  let va := first_occurrences va in
  match va with
  | [] => UNone
  | [x] => UOne x
  | _ => UMany (list_sort va)
  end.

(** Lines 419-439, on the array [v] that [_values] returned, of as many
    columns as there are attributes. *)
Definition unique_values (pars : list string)
    (v : list (list (option Value))) : gmap string Unique :=
  let values := (λ a, unique_column (column a v)) <$> seq 0 (length pars) in
  foldl (λ d ip, <[ip.2 := default UNone (values !! ip.1)]> d) ∅
    (enumerate pars).

End Unique.

(** What [unique] must say of a column. *)
Definition distinct_values_of (va : list (option Value)) (u : Unique)
    : Prop :=
  match u with
  | UNone => ∀ x, Some x ∉ va
  | UOne x => Some x ∈ va ∧ ∀ y, Some y ∈ va → y = x
  | UMany l => NoDup l ∧ (2 ≤ length l)%nat ∧ ∀ x, x ∈ l ↔ Some x ∈ va
  end.

(** A sort of numbers, which leaves the rest where the merge puts it. *)
Definition number_le (a b : Value) : Prop :=
  match a, b with
  | VInt x, VInt y => (x ≤ y)%Z
  | _, _ => True
  end.

#[global] Instance number_le_dec a b : Decision (number_le a b).
Proof. destruct a, b; simpl; apply _. Defined.

(** * Properties *)

(** ** Running binds *)

Lemma bind_run {A B} (c : M A) (f : A → M B) w x w' :
  c w = (inr x, w') → (c ≫= f) w = f x w'.
Proof. intros Hc. unfold mbind, M_bind. by rewrite Hc. Qed.

Lemma bind_fail {A B} (c : M A) (f : A → M B) w e w' :
  c w = (inl e, w') → (c ≫= f) w = (inl e, w').
Proof. intros Hc. unfold mbind, M_bind. by rewrite Hc. Qed.

Lemma bind_inv {A B} (c : M A) (f : A → M B) w y w' :
  (c ≫= f) w = (inr y, w') →
  ∃ x w1, c w = (inr x, w1) ∧ f x w1 = (inr y, w').
Proof.
  unfold mbind, M_bind. destruct (c w) as [[e|x] w1]; [done|]. eauto.
Qed.

Lemma lift_inv {A} (r : Exn + A) w x w' :
  lift r w = (inr x, w') → r = inr x ∧ w' = w.
Proof. unfold lift. by intros [= -> ->]. Qed.

Lemma get_register_run self w db :
  heap w !! self = Some db → get_register self w = (inr (register db), w).
Proof.
  intros Hs. unfold get_register, get_db, mbind, M_bind. by rewrite Hs.
Qed.

Lemma get_path_run self w db :
  heap w !! self = Some db → get_path self w = (inr (path db), w).
Proof.
  intros Hs. unfold get_path, get_db, mbind, M_bind. by rewrite Hs.
Qed.

Lemma get_register_inv self w reg w' :
  get_register self w = (inr reg, w') →
  w' = w ∧ ∃ db, heap w !! self = Some db ∧ reg = register db.
Proof.
  unfold get_register, get_db, mbind, M_bind.
  destruct (heap w !! self) as [db|]; [|done].
  intros [= <- <-]. eauto.
Qed.

Lemma set_register_run self reg w db :
  heap w !! self = Some db →
  set_register self reg w =
    (inr tt, mkWorld (fs w) (<[self := mkDB (path db) reg]> (heap w))
               (next_uid w)).
Proof. intros Hs. unfold set_register. by rewrite Hs. Qed.

Lemma register_file_run self w db :
  heap w !! self = Some db →
  _register_file self w =
    (inr (path_join (path db) (basename (path db) +:+ ".pkl")), w).
Proof.
  intros Hs. unfold _register_file.
  by rewrite (bind_run _ _ _ _ _ (get_path_run _ _ _ Hs)).
Qed.

(** ** What a computation keeps *)

Section Preservation.
Context (I : World → Prop).

Lemma preserves_ret {A} (x : A) : preserves I (mret x).
Proof. by intros w Hw. Qed.

Lemma preserves_raise {A} e : preserves I (raise e : M A).
Proof. by intros w Hw. Qed.

Lemma preserves_lift {A} (r : Exn + A) : preserves I (lift r).
Proof. by intros w Hw. Qed.

Lemma preserves_bind {A B} (c : M A) (f : A → M B) :
  preserves I c → (∀ x, preserves I (f x)) → preserves I (c ≫= f).
Proof.
  intros Hc Hf w Hw. specialize (Hc w Hw). unfold mbind, M_bind.
  destruct (c w) as [[e|x] w1]; simpl in *; [done|]. by apply Hf.
Qed.

Lemma preserves_bind_val {A B} (c : M A) (f : A → M B) (Q : A → Prop) :
  preserves I c → returns I c Q → (∀ x, Q x → preserves I (f x)) →
  preserves I (c ≫= f).
Proof.
  intros Hc Hr Hf w Hw. specialize (Hc w Hw). specialize (Hr w).
  unfold mbind, M_bind.
  destruct (c w) as [[e|x] w1]; simpl in *; [done|].
  apply Hf; [|done]. by eapply Hr.
Qed.

Lemma preserves_try_except {A} (body handler : M A) :
  preserves I body → preserves I handler →
  preserves I (try_except body handler).
Proof.
  intros Hb Hh w Hw. specialize (Hb w Hw). unfold try_except.
  destruct (body w) as [[e|x] w1]; simpl in *; [|done]. by apply Hh.
Qed.

Lemma preserves_try_except_else {A B} (body : M A) (handler : M B)
    (orelse : A → M B) :
  preserves I body → preserves I handler → (∀ x, preserves I (orelse x)) →
  preserves I (try_except_else body handler orelse).
Proof.
  intros Hb Hh Ho w Hw. specialize (Hb w Hw). unfold try_except_else.
  destruct (body w) as [[e|x] w1]; simpl in *; [by apply Hh|by apply Ho].
Qed.

Lemma preserves_fold_m {A S} (l : list A) (body : S → A → M S) :
  (∀ s x, preserves I (body s x)) → ∀ s, preserves I (fold_m l s body).
Proof.
  intros Hb. induction l as [|x l IH]; intros s; simpl.
  - apply preserves_ret.
  - apply preserves_bind; [apply Hb|]. intros s'. apply IH.
Qed.

Lemma preserves_for_each {A} (l : list A) (body : A → M unit) :
  (∀ x, preserves I (body x)) → preserves I (for_each l body).
Proof.
  intros Hb. induction l as [|x l IH]; simpl.
  - apply preserves_ret.
  - apply preserves_bind; [apply Hb|]. by intros _.
Qed.

Lemma preserves_read_local {A} name (v : option A) :
  preserves I (read_local name v).
Proof. destruct v; [apply preserves_ret|apply preserves_raise]. Qed.

Lemma preserves_get_fs : preserves I get_fs.
Proof. by intros w Hw. Qed.

Lemma preserves_get_db self : preserves I (get_db self).
Proof. intros w Hw. unfold get_db. by destruct (heap w !! self). Qed.

Lemma preserves_get_register self : preserves I (get_register self).
Proof.
  apply preserves_bind; [apply preserves_get_db|].
  intros db. apply preserves_ret.
Qed.

Lemma preserves_get_path self : preserves I (get_path self).
Proof.
  apply preserves_bind; [apply preserves_get_db|].
  intros db. apply preserves_ret.
Qed.

Lemma preserves_register_file self : preserves I (_register_file self).
Proof.
  apply preserves_bind; [apply preserves_get_path|].
  intros p. apply preserves_ret.
Qed.

End Preservation.

Lemma returns_bind {A B} I (c : M A) (f : A → M B) (Q : A → Prop)
    (R : B → Prop) :
  preserves I c → returns I c Q → (∀ x, Q x → returns I (f x) R) →
  returns I (c ≫= f) R.
Proof.
  intros Hc Hr Hf w y w' Hw Hrun.
  apply bind_inv in Hrun as (x & w1 & Hx & Hy).
  specialize (Hc w Hw). rewrite Hx in Hc. simpl in Hc.
  eapply Hf; [by eapply Hr|exact Hc|exact Hy].
Qed.

Lemma returns_ret {A} I (x : A) (Q : A → Prop) : Q x → returns I (mret x) Q.
Proof. intros HQ w y w' _ [= <- _]. exact HQ. Qed.

Create HintDb pres discriminated.

#[local] Hint Resolve preserves_ret preserves_raise preserves_lift
  preserves_get_fs preserves_get_db preserves_get_register preserves_get_path
  preserves_register_file preserves_read_local : pres.

(** One step of a preservation proof: a known computation, or the
    structure of the program. *)
Ltac pres_step :=
  first
    [ solve [eauto 4 with pres]
    | apply preserves_bind; [|intros ?]
    | apply preserves_try_except
    | apply preserves_try_except_else; [| |intros ?]
    | apply preserves_fold_m; intros ? ?
    | apply preserves_for_each; intros ?
    | match goal with
      | |- preserves _ (if ?b then _ else _) => destruct b
      | |- preserves _ (match ?x with _ => _ end) => destruct x
      | |- preserves _ (let _ := _ in _) => cbv zeta
      end ].

Ltac pres := repeat pres_step.

(** *** Computations that leave the heap alone *)

Section HeapFree.
Context `{Services}.
Context (I : World → Prop).
Hypothesis heap_only : ∀ w w', heap w = heap w' → I w → I w'.

Lemma preserves_put_fs f : preserves I (put_fs f).
Proof. intros w Hw. eapply heap_only; [|exact Hw]. done. Qed.

Lemma preserves_new_uid : preserves I new_uid.
Proof. intros w Hw. eapply heap_only; [|exact Hw]. done. Qed.

Hint Resolve preserves_put_fs preserves_new_uid : pres.

Lemma preserves_os_remove p : preserves I (os_remove p).
Proof. unfold os_remove. pres. Qed.

Lemma preserves_read_dataset p : preserves I (read_dataset p).
Proof. unfold read_dataset. pres. Qed.

Lemma preserves_write_dataset_file ds p :
  preserves I (write_dataset_file ds p).
Proof. unfold write_dataset_file. pres. Qed.

Hint Resolve preserves_os_remove preserves_read_dataset
  preserves_write_dataset_file : pres.

Lemma preserves_max_series_number m uid :
  preserves I (_max_series_number m uid).
Proof. unfold _max_series_number. pres. Qed.

Lemma preserves_max_instance_number m uid :
  preserves I (_max_instance_number m uid).
Proof. unfold _max_instance_number. pres. Qed.

Hint Resolve preserves_max_series_number preserves_max_instance_number : pres.

Lemma preserves_from_first_file m e attr :
  preserves I (from_first_file m e attr).
Proof. unfold from_first_file. pres. Qed.

Hint Resolve preserves_from_first_file : pres.

Lemma preserves_patient_attributes m e :
  preserves I (_patient_attributes m e).
Proof. unfold _patient_attributes. pres. Qed.

Hint Resolve preserves_patient_attributes : pres.

Lemma preserves_study_attributes m e : preserves I (_study_attributes m e).
Proof. unfold _study_attributes. pres. Qed.

Hint Resolve preserves_study_attributes : pres.

Lemma preserves_series_attributes m e : preserves I (_series_attributes m e).
Proof. unfold _series_attributes. pres. Qed.

Hint Resolve preserves_series_attributes : pres.

Lemma preserves_attributes m e : preserves I (_attributes m e).
Proof. unfold _attributes. pres. Qed.

Hint Resolve preserves_attributes : pres.

Lemma preserves_destination m e : preserves I (destination m e).
Proof. unfold destination. pres. Qed.

Lemma preserves_write_dataset m ds attr nr new_instances :
  preserves I (_write_dataset m ds attr nr new_instances).
Proof. unfold _write_dataset. pres. Qed.

Lemma preserves_patients m : preserves I (patients m).
Proof. unfold patients. pres. Qed.

Hint Resolve preserves_patients : pres.

Lemma preserves_studies m e : preserves I (studies m e).
Proof. unfold studies. pres. Qed.

Hint Resolve preserves_studies : pres.

Lemma preserves_series m e : preserves I (series m e).
Proof. unfold series. pres. Qed.

End HeapFree.

#[local] Hint Resolve preserves_put_fs preserves_new_uid preserves_os_remove
  preserves_read_dataset preserves_write_dataset_file
  preserves_max_series_number preserves_max_instance_number
  preserves_from_first_file
  preserves_patient_attributes preserves_study_attributes
  preserves_series_attributes preserves_attributes preserves_destination
  preserves_write_dataset preserves_patients preserves_studies
  preserves_series : pres.

(** *** Methods run on another object

    A property of the object [self] alone is kept by every method run on an
    object [m ≠ self], and by the construction of a new object. *)

Section OtherObject.
Context `{Services}.
Context (self : nat) (I : World → Prop).
Hypothesis I_allocated : ∀ w, I w → is_Some (heap w !! self).
Hypothesis I_local : ∀ w w', heap w !! self = heap w' !! self → I w → I w'.

Lemma local_heap_only : ∀ w w', heap w = heap w' → I w → I w'.
Proof. intros w w' Hh. apply I_local. by rewrite Hh. Qed.

Hint Resolve local_heap_only : pres.

Lemma preserves_set_register m reg :
  m ≠ self → preserves I (set_register m reg).
Proof.
  intros Hm w Hw. unfold set_register.
  destruct (heap w !! m) as [db|] eqn:Hdb; [|done]. simpl.
  eapply I_local; [|exact Hw]. simpl. by rewrite list_lookup_insert_ne.
Qed.

Lemma preserves_new_db p : preserves I (new_db p).
Proof.
  intros w Hw. eapply I_local; [|exact Hw]. simpl.
  destruct (I_allocated w Hw) as [db Hdb].
  by rewrite (lookup_app_l_Some _ _ _ _ Hdb).
Qed.

Lemma returns_new_db p : returns I (new_db p) (λ m, m ≠ self).
Proof.
  intros w m w' Hw [= <- _].
  destruct (I_allocated w Hw) as [db Hdb].
  apply lookup_lt_Some in Hdb. lia.
Qed.

Hint Resolve preserves_set_register preserves_new_db : pres.

Lemma preserves_update_register m rows :
  m ≠ self → preserves I (_update_register m rows).
Proof. intros Hm. unfold _update_register. pres. Qed.

Hint Resolve preserves_update_register : pres.

Lemma preserves_files_to_series m files e :
  m ≠ self → preserves I (_files_to_series m files e).
Proof. intros Hm. unfold _files_to_series. pres. Qed.

Hint Resolve preserves_files_to_series : pres.

Lemma preserves_multiframe_body m rel :
  m ≠ self → preserves I (multiframe_body m rel).
Proof. intros Hm. unfold multiframe_body. pres. Qed.

Hint Resolve preserves_multiframe_body : pres.

Lemma preserves_multiframe_to_singleframe m :
  m ≠ self → preserves I (_multiframe_to_singleframe m).
Proof. intros Hm. unfold _multiframe_to_singleframe. pres. Qed.

Lemma preserves_split_series m :
  m ≠ self → preserves I (_split_series m).
Proof. intros Hm. unfold _split_series. pres. Qed.

Hint Resolve preserves_multiframe_to_singleframe preserves_split_series
  : pres.

Lemma preserves_read m : m ≠ self → preserves I (read m).
Proof. intros Hm. unfold read. pres. Qed.

Hint Resolve preserves_read : pres.

Lemma preserves_close m : m ≠ self → preserves I (close m).
Proof. intros Hm. unfold close. pres. Qed.

Lemma preserves_restore m : m ≠ self → preserves I (restore m).
Proof. intros Hm. unfold restore. pres. Qed.

Lemma preserves_delete m e : m ≠ self → preserves I (delete m e).
Proof. intros Hm. unfold delete. pres. Qed.

Hint Resolve preserves_close : pres.

Lemma preserves_DataBaseDicom p : preserves I (DataBaseDicom p).
Proof.
  unfold DataBaseDicom.
  eapply preserves_bind_val;
    [apply preserves_new_db|apply returns_new_db|intros m Hm]. pres.
Qed.

Lemma returns_DataBaseDicom p : returns I (DataBaseDicom p) (λ m, m ≠ self).
Proof.
  unfold DataBaseDicom.
  eapply returns_bind; [apply preserves_new_db|apply returns_new_db|].
  intros m Hm w y w' Hw Hrun.
  apply bind_inv in Hrun as (file & w1 & _ & Hrun).
  apply bind_inv in Hrun as (f & w2 & _ & Hrun).
  apply bind_inv in Hrun as (u & w3 & _ & Hrun).
  by injection Hrun as <- _.
Qed.

End OtherObject.

(** ** Lists and files *)

Lemma filter_ext_elem {A} (P Q : A → Prop) `{∀ x, Decision (P x)}
    `{∀ x, Decision (Q x)} (l : list A) :
  (∀ x, x ∈ l → P x ↔ Q x) → filter P l = filter Q l.
Proof.
  induction l as [|x l IH]; intros HPQ; [done|].
  rewrite !filter_cons.
  assert (filter P l = filter Q l) as ->.
  { apply IH. intros y Hy. apply HPQ. by right. }
  assert (P x ↔ Q x) as Hx by (apply HPQ; left).
  destruct (decide (P x)), (decide (Q x)); tauto.
Qed.

Lemma filter_all {A} (P : A → Prop) `{∀ x, Decision (P x)} (l : list A) :
  Forall P l → filter P l = l.
Proof.
  induction 1 as [|x l Hx _ IH]; [done|].
  by rewrite filter_cons_True, IH.
Qed.

Lemma filter_none {A} (P : A → Prop) `{∀ x, Decision (P x)} (l : list A) :
  Forall (λ x, ¬ P x) l → filter P l = [].
Proof.
  induction 1 as [|x l Hx _ IH]; [done|].
  by rewrite filter_cons_False.
Qed.

Lemma fs_lookup_None p f :
  fs_lookup p f = None → Forall (λ e, e.1 ≠ p) f.
Proof.
  induction f as [|[q x] f IH]; simpl; [by constructor|].
  destruct (decide (q = p)); [done|]. intros Hf. constructor; auto.
Qed.

Lemma fs_remove_absent p f : fs_exists p f = false → fs_remove p f = f.
Proof.
  unfold fs_exists. intros Hex%bool_decide_eq_false.
  apply filter_all, fs_lookup_None.
  destruct (fs_lookup p f) eqn:E; [|done]. by destruct Hex.
Qed.

Lemma without_cons p gone f :
  without gone (fs_remove p f) = without (p :: gone) f.
Proof.
  unfold without, fs_remove. rewrite list_filter_filter.
  apply list_filter_iff. intros e. rewrite not_elem_of_cons. tauto.
Qed.

Lemma without_nil f : without [] f = f.
Proof. apply filter_all, Forall_forall. intros e _. apply not_elem_of_nil. Qed.

(** The loop of [close] and [restore] that deletes the files still there. *)
Lemma remove_loop p ixs w :
  for_each ixs (λ index,
    let file := path_join p index in
    f ← get_fs;
    if fs_exists file f then os_remove file else mret tt) w
  = (inr tt, mkWorld (without (path_join p <$> ixs) (fs w)) (heap w)
               (next_uid w)).
Proof.
  revert w. induction ixs as [|ix ixs IH]; intros w; simpl.
  - rewrite without_nil. by destruct w.
  - set (file := path_join p ix).
    assert ((f ← get_fs;
             if fs_exists file f then os_remove file else mret tt) w
            = (inr tt, mkWorld (fs_remove file (fs w)) (heap w) (next_uid w)))
      as Hbody.
    { unfold mbind, M_bind, get_fs, os_remove. simpl.
      destruct (fs_exists file (fs w)) eqn:Hex; simpl.
      - unfold mbind, M_bind, get_fs. simpl. by rewrite Hex.
      - rewrite fs_remove_absent by done. by destruct w. }
    rewrite (bind_run _ _ _ _ _ Hbody), IH. simpl.
    by rewrite without_cons.
Qed.

Lemma NoDup_fmap_eq {A B} (f : A → B) (l : list A) (x y : A) :
  NoDup (f <$> l) → x ∈ l → y ∈ l → f x = f y → x = y.
Proof.
  induction l as [|z l IH]; [by intros _ ?%elem_of_nil|].
  rewrite fmap_cons, NoDup_cons, !elem_of_cons.
  intros [Hz Hnd] [->|Hx] [->|Hy] Heq; auto.
  - destruct Hz. rewrite Heq. by apply list_elem_of_fmap_2.
  - destruct Hz. rewrite <- Heq. by apply list_elem_of_fmap_2.
Qed.

(** A label of a register without two rows of the same label names its
    row. *)
Lemma relpath_selected (P : Row → Prop) `{∀ r, Decision (P r)}
    (reg : Register) (r : Row) :
  NoDup (relpath <$> reg) → r ∈ reg →
  relpath r ∈ relpath <$> filter P reg ↔ P r.
Proof.
  intros Hnd Hr. split.
  - intros (r' & Heq & [HP Hr']%list_elem_of_filter)%list_elem_of_fmap.
    assert (r = r') as ->; [|done].
    by apply (NoDup_fmap_eq relpath reg).
  - intros HP. apply list_elem_of_fmap. exists r. split; [done|].
    by apply list_elem_of_filter.
Qed.

(** ** Commit and rollback *)

Ltac run_with H := rewrite (bind_run _ _ _ _ _ H); cbv beta zeta.

(** What [close] computes, on any register. *)
Lemma close_run self w db :
  heap w !! self = Some db →
  let reg := register db in
  let created_ix :=
    relpath <$> filter (λ r, created r && negb (removed r) = true) reg in
  let removed_ix := relpath <$> filter (λ r, removed r = true) reg in
  let reg' := loc_set_created created_ix false (drop_index removed_ix reg) in
  close self w =
    (inr tt,
     mkWorld (fs_write (snapshot_file (path db)) (FPickle (Some reg'))
                (without (path_join (path db) <$> removed_ix) (fs w)))
       (<[self := mkDB (path db) reg']> (heap w)) (next_uid w)).
Proof.
  intros Hs reg created_ix removed_ix reg'.
  assert (self < length (heap w)) as Hlt by by eapply lookup_lt_Some.
  unfold close.
  run_with (get_register_run _ _ _ Hs). run_with (get_path_run _ _ _ Hs).
  run_with (remove_loop (path db) removed_ix w).
  match goal with |- (set_register self ?r ≫= _) ?w1 = _ =>
    run_with (set_register_run self r w1 db Hs) end.
  match goal with |- (get_register self ≫= _) ?w2 = _ =>
    assert (heap w2 !! self = Some (mkDB (path db) (drop_index removed_ix reg)))
      as Hs2 by (simpl; by apply list_lookup_insert_eq);
    run_with (get_register_run _ _ _ Hs2);
    run_with (set_register_run self
                (loc_set_created created_ix false (drop_index removed_ix reg))
                w2 _ Hs2)
  end.
  simpl. rewrite list_insert_insert_eq.
  match goal with |- (_register_file self ≫= _) ?w3 = _ =>
    assert (heap w3 !! self = Some (mkDB (path db) reg'))
      as Hs3 by (simpl; by apply list_lookup_insert_eq);
    run_with (register_file_run _ _ _ Hs3);
    run_with (get_register_run _ _ _ Hs3)
  end.
  reflexivity.
Qed.

(** What [restore] computes, on any register. *)
Lemma restore_run self w db :
  heap w !! self = Some db →
  let reg := register db in
  let created_ix := relpath <$> filter (λ r, created r = true) reg in
  let removed_ix :=
    relpath <$> filter (λ r, removed r && negb (created r) = true) reg in
  let reg' := loc_set_removed removed_ix false (drop_index created_ix reg) in
  restore self w =
    (inr tt,
     mkWorld (fs_write (snapshot_file (path db)) (FPickle (Some reg'))
                (without (path_join (path db) <$> created_ix) (fs w)))
       (<[self := mkDB (path db) reg']> (heap w)) (next_uid w)).
Proof.
  intros Hs reg created_ix removed_ix reg'.
  assert (self < length (heap w)) as Hlt by by eapply lookup_lt_Some.
  unfold restore.
  run_with (get_register_run _ _ _ Hs). run_with (get_path_run _ _ _ Hs).
  run_with (remove_loop (path db) created_ix w).
  match goal with |- (set_register self ?r ≫= _) ?w1 = _ =>
    run_with (set_register_run self r w1 db Hs) end.
  match goal with |- (get_register self ≫= _) ?w2 = _ =>
    assert (heap w2 !! self = Some (mkDB (path db) (drop_index created_ix reg)))
      as Hs2 by (simpl; by apply list_lookup_insert_eq);
    run_with (get_register_run _ _ _ Hs2);
    run_with (set_register_run self
                (loc_set_removed removed_ix false (drop_index created_ix reg))
                w2 _ Hs2)
  end.
  simpl. rewrite list_insert_insert_eq.
  match goal with |- (_register_file self ≫= _) ?w3 = _ =>
    assert (heap w3 !! self = Some (mkDB (path db) reg'))
      as Hs3 by (simpl; by apply list_lookup_insert_eq);
    run_with (register_file_run _ _ _ Hs3);
    run_with (get_register_run _ _ _ Hs3)
  end.
  reflexivity.
Qed.

Lemma set_created_same r : set_created (created r) r = r.
Proof. by destruct r. Qed.

Lemma set_removed_same r : set_removed (removed r) r = r.
Proof. by destruct r. Qed.

(** With one row per label, the register [close] leaves is [committed]. *)
Lemma close_register reg :
  NoDup (relpath <$> reg) →
  loc_set_created
    (relpath <$> filter (λ r, created r && negb (removed r) = true) reg) false
    (drop_index (relpath <$> filter (λ r, removed r = true) reg) reg)
  = committed reg.
Proof.
  intros Hnd. unfold loc_set_created, drop_index, committed.
  rewrite (filter_ext_elem
             (λ r, relpath r ∉ relpath <$> filter (λ r, removed r = true) reg)
             (λ r, removed r = false) reg).
  2:{ intros r Hr. rewrite (relpath_selected _ _ _ Hnd Hr).
      by destruct (removed r). }
  apply Forall_fmap_ext_1, Forall_forall.
  intros r [Hrem Hr]%list_elem_of_filter.
  case_decide as Hin; [done|].
  rewrite (relpath_selected _ _ _ Hnd Hr) in Hin.
  rewrite Hrem in Hin. simpl in Hin.
  destruct (created r) eqn:Hc; [by destruct Hin|].
  by rewrite <- Hc, set_created_same.
Qed.

(** With one row per label, the register [restore] leaves is
    [rolled_back]. *)
Lemma restore_register reg :
  NoDup (relpath <$> reg) →
  loc_set_removed
    (relpath <$> filter (λ r, removed r && negb (created r) = true) reg) false
    (drop_index (relpath <$> filter (λ r, created r = true) reg) reg)
  = rolled_back reg.
Proof.
  intros Hnd. unfold loc_set_removed, drop_index, rolled_back.
  rewrite (filter_ext_elem
             (λ r, relpath r ∉ relpath <$> filter (λ r, created r = true) reg)
             (λ r, created r = false) reg).
  2:{ intros r Hr. rewrite (relpath_selected _ _ _ Hnd Hr).
      by destruct (created r). }
  apply Forall_fmap_ext_1, Forall_forall.
  intros r [Hc Hr]%list_elem_of_filter.
  rewrite Hc. simpl. rewrite andb_true_r.
  case_decide as Hin.
  - rewrite (relpath_selected _ _ _ Hnd Hr) in Hin.
    rewrite Hc in Hin. simpl in Hin. rewrite andb_true_r in Hin.
    by rewrite Hin.
  - rewrite (relpath_selected _ _ _ Hnd Hr) in Hin.
    rewrite Hc in Hin. simpl in Hin. rewrite andb_true_r in Hin.
    by destruct (removed r).
Qed.

Lemma new_rows_flags appended :
  Forall (λ r, removed r = false ∧ created r = true) (new_rows appended).
Proof.
  unfold new_rows. apply Forall_fmap, Forall_forall. by intros r _.
Qed.

Lemma length_new_rows appended : length (new_rows appended) = length appended.
Proof. unfold new_rows. by rewrite length_fmap. Qed.






(** ** Copy *)

Section Copy.
Context `{Services}.

(** C4. [copy] raises the shape-mismatch error whenever the two entities do
    not have the same length or that length is not 2, 3 or 4, and it raises
    before anything is changed: the register, the files and the rest of the
    world are those of before the call. *)
Theorem C4_copy_shape_mismatch self (from_entity to_entity : Entity) w :
  length from_entity ≠ length to_entity ∨ length from_entity ∉ [2; 3; 4] →
  ∃ msg, copy self from_entity to_entity w = (inl (ValueError msg), w).
Proof.
  intros Hshape. unfold copy.
  repeat case_decide; try (eexists; reflexivity); exfalso;
    destruct Hshape as [Hne|Hnot]; try congruence;
    apply Hnot; set_solver.
Qed.

(** The copy of a patient to another folder stops at the first study: the
    local [to_study] is read before it is assigned.  Nothing has been
    changed by then. *)
Lemma copy_patient_cross_root self from_patient to_patient w db st sts t0 f0 :
  heap w !! self = Some db →
  register_studies (register db) from_patient = inr (st :: sts) →
  first_label to_patient = inr t0 →
  first_label from_patient = inr f0 →
  t0 ≠ f0 →
  _copy_patient self from_patient to_patient w
  = (inl (UnboundLocalError "to_study"), w).
Proof.
  intros Hs Hst Ht Hf Hne. unfold _copy_patient.
  run_with (get_register_run _ _ _ Hs).
  rewrite Hst, Ht, Hf. unfold lift, mbind, M_bind. simpl.
  by rewrite decide_False.
Qed.

End Copy.

(** A copy on which the hypothesis of C4 holds: a series to a patient. *)
Lemma C4_copy_shape_mismatch_witness :
  (length series_T1 ≠ length [Name "db"; Name "Q"]
   ∨ length series_T1 ∉ [2; 3; 4])
  ∧ ∃ msg, @copy spec_services 0 series_T1 [Name "db"; Name "Q"] demo_world
           = (inl (ValueError msg), demo_world).
Proof.
  assert (length series_T1 ≠ length [Name "db"; Name "Q"]
          ∨ length series_T1 ∉ [2; 3; 4]) as Hshape.
  { left. simpl. lia. }
  split; [exact Hshape|].
  exact (@C4_copy_shape_mismatch spec_services 0 series_T1
           [Name "db"; Name "Q"] demo_world Hshape).
Defined.

(** C10 at a failing input: the copy of the patient [P] of the folder [db]
    to the folder [other] raises [UnboundLocalError] at the first study,
    and no study has been copied. *)
Theorem C10_cross_root_patient_copy_raises :
  @copy spec_services 0 [Name "db"; Name "P"] [Name "other"; Name "P"]
    demo_world
  = (inl (UnboundLocalError "to_study"), demo_world).
Proof.
  unfold copy. simpl.
  eapply (@copy_patient_cross_root spec_services); try reflexivity.
  done.
Qed.

(** ** Writing volumes *)

Section WriteVolume.
Context `{Services}.

(** Writing a volume of other than three dimensions, no reference series
    given, leaves every register as it was, whatever it wrote. *)
Lemma write_volume_nd_heap self vol series multislice w :
  vol_ndim vol ≠ 3 →
  heap (write_volume self vol series None multislice w).2 = heap w.
Proof.
  intros Hnd.
  assert (preserves (λ w', heap w' = heap w)
            (write_volume self vol series None multislice)) as Hp.
  { assert (∀ w1 w2, heap w1 = heap w2 → heap w1 = heap w → heap w2 = heap w)
      as Hho by congruence.
    unfold write_volume.
    apply preserves_bind; [apply preserves_ret|]. intros ds.
    apply preserves_bind; [by apply preserves_destination|]. intros an.
    rewrite decide_False by done. pres. }
  by apply Hp.
Qed.

End WriteVolume.

(** C7 at a failing input: a volume of four dimensions, two volumes of two
    slices, is written to a new series of [demo_world].  The call returns,
    four instance files are on the disk that were not, and the register
    holds the rows it held: none of the written instances is in it. *)
Theorem C7_write_volume_nd_not_registered :
  let r := @write_volume spec_services 0 volume4d series_T2 None false
             demo_world in
  r.1 = inr tt
  ∧ length (filter (λ e, fs_lookup e.1 demo_fs = None) (fs r.2)) = 4
  ∧ register_of 0 r.2 = demo_register.
Proof. by vm_compute. Qed.

(** ** The normalisation passes *)

(** C8 at a failing input: the folder [mixed] has one series, [T1], with an
    instance of class [MR] and one of class [SEG].  Opening the folder runs
    the split.  The series created for the second class is described by
    the folder, ["mixed [1]"], not by the series, ["T1 [1]"]; and the row
    of the moved file [b.dcm] is still in the register, in the series [T1],
    while its file is gone. *)
Theorem C8_split_series_label_and_rows :
  let r := @DataBaseDicom spec_services "mixed" mixed_world in
  r.1 = inr 0
  ∧ (λ x, (relpath x, SeriesDescription x)) <$> register_of 0 r.2
    = [("a.dcm", Some (VStr "T1")); ("b.dcm", Some (VStr "T1"));
       ("dbdicom/2.25.2.dcm", Some (VStr "mixed [1]"))]
  ∧ fs_exists "mixed/b.dcm" (fs r.2) = false.
Proof. by vm_compute. Qed.

Section Multiframe.
Context `{Services}.


End Multiframe.



(** ** Attribute resolution *)

Lemma foldl_max_ge (l : list Z) (x : Z) :
  (x ≤ foldl Z.max x l)%Z ∧ ∀ z, z ∈ l → (z ≤ foldl Z.max x l)%Z.
Proof.
  revert x. induction l as [|y l IH]; intros x; simpl.
  - split; [lia|]. by intros z ?%elem_of_nil.
  - destruct (IH (Z.max x y)) as [H1 H2]. split; [lia|].
    intros z [->|Hz]%elem_of_cons; [lia|by apply H2].
Qed.

Lemma foldl_max_in (l : list Z) (x : Z) :
  foldl Z.max x l = x ∨ foldl Z.max x l ∈ l.
Proof.
  revert x. induction l as [|y l IH]; intros x; simpl; [by left|].
  destruct (IH (Z.max x y)) as [Heq|Hin].
  - rewrite Heq. rewrite elem_of_cons.
    destruct (Z.max_spec x y) as [[_ ->]|[_ ->]]; auto.
  - right. apply elem_of_cons. by right.
Qed.

Lemma amax_maximum (l : list Z) : l ≠ [] → maximum_of (amax l) l.
Proof.
  destruct l as [|x l]; [done|]. intros _. simpl. split.
  - apply elem_of_cons. destruct (foldl_max_in l x); auto.
  - destruct (foldl_max_ge l x) as [H1 H2].
    intros z [->|Hz]%elem_of_cons; auto.
Qed.

Section Attributes.
Context `{Services}.

Lemma from_first_file_state self e attr w :
  (from_first_file self e attr w).2 = w.
Proof.
  unfold from_first_file, get_register, get_db, lift, read_dataset, get_fs,
    mbind, M_bind, mret, M_ret. simpl.
  destruct (heap w !! self); simpl; [|done].
  destruct (register_files _ _); simpl; [done|].
  destruct (first_file _); simpl; [done|].
  by destruct (fs_lookup _ _) as [[]|].
Qed.

Lemma from_first_file_none self e attr w db :
  heap w !! self = Some db → no_files (register db) e →
  ∃ x, from_first_file self e attr w = (inl x, w).
Proof.
  intros Hs Hno. unfold from_first_file.
  run_with (get_register_run _ _ _ Hs).
  unfold lift, mbind, M_bind.
  destruct (register_files (register db) e) as [x|[|f files]] eqn:Hf.
  - by exists x.
  - by exists IndexError.
  - by destruct (Hno f files).
Qed.

Lemma last_label_some (e : Entity) : e ≠ [] → ∃ l, last_label e = inr l.
Proof.
  intros He. unfold last_label. destruct (last e) as [l|] eqn:Hl; [eauto|].
  by apply last_None in Hl.
Qed.

(** The patient level: it returns, generates at most UIDs, and synthesises
    when the patient has no file. *)
Lemma patient_attributes_spec self w db e l :
  heap w !! self = Some db → last_label e = inr l →
  ∃ attr w',
    _patient_attributes self e w = (inr attr, w')
    ∧ heap w' = heap w ∧ fs w' = fs w ∧ (next_uid w ≤ next_uid w')%nat
    ∧ (no_files (register db) e →
       fresh_uid w w' (attr !! "PatientID")
       ∧ attr !! "PatientName" = Some (VStr (label_desc l))).
Proof.
  intros Hs Hl. unfold _patient_attributes, try_except, mbind, M_bind.
  pose proof (from_first_file_state self e PATIENT_MODULE w) as Hst.
  destruct (from_first_file self e PATIENT_MODULE w) as [[x|av] w1] eqn:Hb;
    simpl in Hst; subst w1.
  - unfold new_uid, lift. rewrite Hl. simpl.
    eexists _, _. split; [reflexivity|]. simpl.
    split; [done|]. split; [done|]. split; [simpl; clear; lia|]. intros _. split.
    + exists (next_uid w). split; [simpl; clear; lia|]. by vm_compute.
    + by vm_compute.
  - eexists _, _. split; [reflexivity|].
    split; [done|]. split; [done|]. split; [simpl; clear; lia|]. intros Hno.
    destruct (from_first_file_none self e PATIENT_MODULE w db Hs Hno)
      as [x Hx]; congruence.
Qed.

Lemma study_attributes_spec self w db e l :
  heap w !! self = Some db → last_label e = inr l → take 2 e ≠ [] →
  ∃ attr w',
    _study_attributes self e w = (inr attr, w')
    ∧ heap w' = heap w ∧ fs w' = fs w ∧ (next_uid w ≤ next_uid w')%nat
    ∧ (no_files (register db) e →
       fresh_uid w w' (attr !! "StudyInstanceUID")
       ∧ attr !! "StudyDescription" = Some (VStr (label_desc l))
       ∧ attr !! "StudyDate" = Some (VStr today)).
Proof.
  intros Hs Hl Hne. unfold _study_attributes.
  destruct (last_label_some _ Hne) as [lp Hlp].
  destruct (patient_attributes_spec self w db (take 2 e) lp Hs Hlp)
    as (pa & w0 & Hrun & Hh & Hf & Hu & _).
  run_with Hrun.
  assert (heap w0 !! self = Some db) as Hs0 by by rewrite Hh.
  unfold try_except, mbind, M_bind.
  pose proof (from_first_file_state self e STUDY_MODULE w0) as Hst.
  destruct (from_first_file self e STUDY_MODULE w0) as [[x|av] w1] eqn:Hb;
    simpl in Hst; subst w1.
  - unfold new_uid, lift. rewrite Hl. simpl.
    eexists _, _. split; [reflexivity|]. simpl.
    split; [done|]. split; [done|]. split; [clear -Hu; simpl; lia|]. intros _.
    split; [|split].
    + exists (next_uid w0). split; [clear -Hu; simpl; lia|].
      rewrite lookup_union_l'; [by vm_compute|by eexists; vm_compute].
    + rewrite lookup_union_l'; [by vm_compute|by eexists; vm_compute].
    + rewrite lookup_union_l'.
      * unfold dict_of. simpl. by rewrite lookup_insert_eq.
      * unfold dict_of. simpl. rewrite lookup_insert_eq. by eexists.
  - eexists _, _. split; [reflexivity|].
    split; [done|]. split; [done|]. split; [clear -Hu; simpl; lia|]. intros Hno.
    destruct (from_first_file_none self e STUDY_MODULE w0 db Hs0 Hno)
      as [x Hx]; congruence.
Qed.

Lemma max_series_number_next reg study_uid :
  (series_numbers reg study_uid = []
   ∧ (1 + max_series_number reg study_uid)%Z = 1%Z)
  ∨ (∃ m, maximum_of m (series_numbers reg study_uid)
          ∧ (1 + max_series_number reg study_uid)%Z = (1 + m)%Z).
Proof.
  unfold max_series_number, max_number. fold (series_numbers reg study_uid).
  destruct (series_numbers reg study_uid) as [|z l] eqn:Hn.
  - left. by rewrite decide_True.
  - right. rewrite decide_False by done. eexists. split; [|done].
    by apply amax_maximum.
Qed.

Lemma series_attributes_spec self w db e l :
  heap w !! self = Some db → last_label e = inr l → take 2 (take 3 e) ≠ [] →
  ∃ attr w',
    _series_attributes self e w = (inr attr, w')
    ∧ heap w' = heap w ∧ fs w' = fs w ∧ (next_uid w ≤ next_uid w')%nat
    ∧ (no_files (register db) e →
       fresh_uid w w' (attr !! "SeriesInstanceUID")
       ∧ attr !! "SeriesDescription" = Some (VStr (label_desc l))
       ∧ ∃ n, attr !! "SeriesNumber" = Some (VInt n)
              ∧ next_series_number (register db) e n).
Proof.
  intros Hs Hl Hne. unfold _series_attributes.
  assert (take 3 e ≠ []) as Hne3 by (by destruct e).
  destruct (last_label_some _ Hne3) as [ls Hls].
  destruct (study_attributes_spec self w db (take 3 e) ls Hs Hls Hne)
    as (sa & w0 & Hrun & Hh & Hf & Hu & _).
  run_with Hrun.
  assert (heap w0 !! self = Some db) as Hs0 by by rewrite Hh.
  unfold try_except at 1. unfold mbind at 1, M_bind at 1.
  pose proof (from_first_file_state self e SERIES_MODULE w0) as Hst.
  destruct (from_first_file self e SERIES_MODULE w0) as [[x|av] w1] eqn:Hb;
    simpl in Hst; subst w1.
  - assert (∃ n, try_except_else
                   (reg ← get_register self;
                    lift (register_uid reg (but_last e)))
                   (mret 1%Z)
                   (λ study_uid, n ← _max_series_number self study_uid;
                                 mret (1 + n)%Z) w0 = (inr n, w0)
                 ∧ next_series_number (register db) e n) as (n & Hn & Hnext).
    { assert ((reg ← get_register self;
               lift (register_uid reg (but_last e))) w0
              = (register_uid (register db) (but_last e), w0)) as Hbody.
      { by rewrite (bind_run _ _ _ _ _ (get_register_run _ _ _ Hs0)). }
      unfold next_series_number.
      destruct (register_uid (register db) (but_last e)) as [x'|uid].
      - exists 1%Z. unfold try_except_else. by rewrite Hbody.
      - exists (1 + max_series_number (register db) uid)%Z. split.
        + assert (_max_series_number self uid w0
                  = (inr (max_series_number (register db) uid), w0)) as Hmax.
          { unfold _max_series_number.
            by rewrite (bind_run _ _ _ _ _ (get_register_run _ _ _ Hs0)). }
          unfold try_except_else. rewrite Hbody.
          by rewrite (bind_run _ _ _ _ _ Hmax).
        + apply max_series_number_next. }
    run_with Hn. unfold new_uid, lift. rewrite Hl.
    unfold mbind, M_bind, mret, M_ret. simpl.
    eexists _, _. split; [reflexivity|]. simpl.
    split; [done|]. split; [done|]. split; [clear -Hu; simpl; lia|]. intros _.
    split; [|split].
    + exists (next_uid w0). split; [clear -Hu; simpl; lia|].
      rewrite lookup_union_l'; [by vm_compute|by eexists; vm_compute].
    + rewrite lookup_union_l'; [by vm_compute|by eexists; vm_compute].
    + exists n. split; [|done].
      rewrite lookup_union_l'.
      * unfold dict_of. simpl. by rewrite lookup_insert_eq.
      * unfold dict_of. simpl. rewrite lookup_insert_eq. by eexists.
  - unfold mret, M_ret.
    eexists _, _. split; [reflexivity|].
    split; [done|]. split; [done|]. split; [clear -Hu; simpl; lia|]. intros Hno.
    destruct (from_first_file_none self e SERIES_MODULE w0 db Hs0 Hno)
      as [x Hx]; congruence.
Qed.

End Attributes.

Lemma dict_of_omits (keys : list string) (vals : list (option Value))
    (k : string) :
  (∀ i v, keys !! i = Some k → vals !! i ≠ Some (Some v)) →
  dict_of keys vals !! k = None.
Proof.
  unfold dict_of. generalize (∅ : gmap string Value) (lookup_empty (A:=Value) k).
  revert vals. induction keys as [|key keys IH]; intros vals m Hm Hk;
    [done|].
  destruct vals as [|val vals]; [done|]. simpl. apply IH.
  - destruct val as [v|]; [|done]. rewrite lookup_insert_ne; [done|].
    intros ->. by apply (Hk 0 v).
  - intros i v Hi. by apply (Hk (S i) v).
Qed.

Section Resolution.
Context `{Services}.


End Resolution.


(** ** Instance numbers *)

Lemma max_number_nonneg (values : list Z) :
  Forall (λ z, (-1 ≤ z)%Z) values → (0 ≤ max_number values)%Z.
Proof.
  intros Hv. unfold max_number.
  set (n := filter (λ z, z ≠ (-1)%Z) values).
  case_decide as Hn; [done|].
  assert (n ≠ []) as Hne by (by destruct n).
  destruct (amax_maximum n Hne) as [Hin _].
  apply list_elem_of_filter in Hin as [Hne1 Hin].
  rewrite Forall_forall in Hv. specialize (Hv _ Hin). lia.
Qed.

Lemma max_number_ge (values : list Z) (z : Z) :
  Forall (λ z, (-1 ≤ z)%Z) values → z ∈ values → (z ≤ max_number values)%Z.
Proof.
  intros Hv Hz. destruct (decide (z = (-1)%Z)) as [->|Hne].
  - pose proof (max_number_nonneg values Hv). lia.
  - unfold max_number.
    set (n := filter (λ z, z ≠ (-1)%Z) values).
    assert (z ∈ n) as Hin by (by apply list_elem_of_filter).
    rewrite decide_False by (by destruct n; [apply elem_of_nil in Hin|]).
    apply amax_maximum; [|done]. intros Hnil. rewrite Hnil in Hin.
    by apply elem_of_nil in Hin.
Qed.

Lemma max_instance_number_ge reg uid r :
  numbered reg → r ∈ reg → removed r = false →
  SeriesInstanceUID r = Some uid →
  (InstanceNumber r ≤ max_instance_number reg uid)%Z.
Proof.
  intros Hnum Hr Hrem Huid. unfold max_instance_number.
  apply max_number_ge.
  - apply Forall_fmap, Forall_forall. intros r' [_ Hr']%list_elem_of_filter.
    unfold numbered in Hnum. rewrite Forall_forall in Hnum. by apply Hnum.
  - apply list_elem_of_fmap_2. by apply list_elem_of_filter.
Qed.

Lemma max_instance_number_nonneg reg uid :
  numbered reg → (0 ≤ max_instance_number reg uid)%Z.
Proof.
  intros Hnum. apply max_number_nonneg, Forall_fmap, Forall_forall.
  intros r' [_ Hr']%list_elem_of_filter.
  unfold numbered in Hnum. rewrite Forall_forall in Hnum. by apply Hnum.
Qed.

(** *** The invariant of a session and the four changes of a register *)

Lemma loaded_session_inv reg :
  loaded reg → NoDup (pair_of <$> reg) → numbered reg → session_inv reg.
Proof.
  intros Hl Hnd Hnum. unfold session_inv, unique_pairs.
  rewrite !filter_all; [done|..];
    eapply Forall_impl; try exact Hl; by intros r [? ?].
Qed.

Lemma session_inv_append reg new :
  session_inv reg → appended_to reg new → session_inv (reg ++ new).
Proof.
  intros (Hu & Hc & Hnum) (Hflags & Hnd & uid & Hnew).
  unfold session_inv, unique_pairs. rewrite !filter_app. split; [|split].
  - rewrite (filter_all _ new)
      by (eapply Forall_impl; [exact Hflags|]; by intros r [? _]).
    rewrite fmap_app. apply NoDup_app. split; [exact Hu|]. split.
    + intros p (r' & -> & [Hrem Hr']%list_elem_of_filter)%list_elem_of_fmap
        (r & Heq & Hr)%list_elem_of_fmap.
      rewrite Forall_forall in Hnew. destruct (Hnew r Hr) as [Huid Hgt].
      injection Heq as Hs Hn.
      pose proof (max_instance_number_ge reg uid r' Hnum Hr' Hrem) as Hle.
      rewrite Hs, Huid in Hle. specialize (Hle eq_refl). lia.
    + apply (NoDup_fmap_1 snd). by rewrite <- list_fmap_compose.
  - rewrite (filter_none _ new), app_nil_r; [done|].
    eapply Forall_impl; [exact Hflags|]. intros r [_ ->]. done.
  - apply Forall_app. split; [done|].
    rewrite Forall_forall in Hnew. apply Forall_forall. intros r Hr.
    destruct (Hnew r Hr) as [_ Hgt].
    pose proof (max_instance_number_nonneg reg uid Hnum). lia.
Qed.

Lemma pair_of_set_removed b r : pair_of (set_removed b r) = pair_of r.
Proof. done. Qed.

Lemma pair_of_set_created b r : pair_of (set_created b r) = pair_of r.
Proof. done. Qed.

(** Marking rows removed. *)
Lemma session_inv_mark_removed index reg :
  session_inv reg → session_inv (loc_set_removed index true reg).
Proof.
  intros (Hu & Hc & Hnum). unfold session_inv, unique_pairs.
  split; [|split].
  - eapply sublist_NoDup; [exact Hu|].
    clear. unfold loc_set_removed. induction reg as [|r reg IH]; [done|].
    rewrite fmap_cons. destruct (decide (relpath r ∈ index)) as [Hin|Hin].
    + rewrite filter_cons_False by done.
      rewrite filter_cons. destruct (decide (removed r = false)); [|done].
      rewrite fmap_cons. by apply sublist_cons.
    + rewrite !filter_cons. destruct (decide (removed r = false)); [|done].
      rewrite !fmap_cons. by apply sublist_skip.
  - replace (pair_of <$> filter (λ r, created r = false)
                          (loc_set_removed index true reg))
      with (pair_of <$> filter (λ r, created r = false) reg); [done|].
    clear. unfold loc_set_removed. induction reg as [|r reg IH]; [done|].
    rewrite fmap_cons, !filter_cons.
    destruct (decide (relpath r ∈ index)) as [Hin|Hin]; simpl;
      destruct (decide (created r = false)); by rewrite ?fmap_cons, ?IH.
  - unfold numbered, loc_set_removed. apply Forall_fmap.
    eapply Forall_impl; [exact Hnum|]. intros r Hr. simpl.
    by destruct (decide (relpath r ∈ index)).
Qed.

(** The rows a drop by labels keeps, when the labels are those of the rows
    that [P] selects, are rows that [P] does not select. *)
Lemma drop_index_selected (P : Row → Prop) `{∀ r, Decision (P r)} reg :
  drop_index (relpath <$> filter P reg) reg
  `sublist_of` filter (λ r, ¬ P r) reg.
Proof.
  unfold drop_index.
  rewrite (filter_ext_elem
             (λ r, relpath r ∉ relpath <$> filter P reg)
             (λ r, (relpath r ∉ relpath <$> filter P reg) ∧ ¬ P r) reg).
  - rewrite <- list_filter_filter. apply sublist_filter.
  - intros r Hr. split; [|by intros [? _]]. intros Hnot. split; [done|].
    intros HP. apply Hnot, list_elem_of_fmap_2.
    by apply list_elem_of_filter.
Qed.

(** Rows kept from those that [P] selects, changed in their flags only. *)
Lemma session_inv_keep (P : Row → Prop) `{∀ r, Decision (P r)}
    (g : Row → Row) (kept reg : Register) :
  (∀ r, pair_of (g r) = pair_of r) →
  kept `sublist_of` filter P reg →
  NoDup (pair_of <$> filter P reg) → numbered reg →
  session_inv (g <$> kept).
Proof.
  intros Hg Hsub Hnd Hnum.
  assert (pair_of <$> (g <$> kept) = pair_of <$> kept) as Hpairs.
  { rewrite <- list_fmap_compose. apply Forall_fmap_ext_1, Forall_forall.
    intros r _. apply Hg. }
  assert (NoDup (pair_of <$> (g <$> kept))) as Hall.
  { rewrite Hpairs. eapply sublist_NoDup; [exact Hnd|].
    by apply fmap_sublist. }
  unfold session_inv, unique_pairs. split; [|split].
  - eapply sublist_NoDup; [exact Hall|]. apply fmap_sublist, sublist_filter.
  - eapply sublist_NoDup; [exact Hall|]. apply fmap_sublist, sublist_filter.
  - unfold numbered. apply Forall_fmap, Forall_forall. intros r Hr. simpl.
    assert (InstanceNumber (g r) = InstanceNumber r) as ->.
    { specialize (Hg r). by injection Hg. }
    unfold numbered in Hnum. rewrite Forall_forall in Hnum. apply Hnum.
    pose proof (elem_of_sublist _ _ _ Hr Hsub) as Hin.
    by apply list_elem_of_filter in Hin as [_ ?].
Qed.

Lemma session_inv_close reg :
  session_inv reg →
  session_inv
    (loc_set_created
       (relpath <$> filter (λ r, created r && negb (removed r) = true) reg)
       false
       (drop_index (relpath <$> filter (λ r, removed r = true) reg) reg)).
Proof.
  intros (Hu & Hc & Hnum). unfold loc_set_created.
  apply (session_inv_keep (λ r, removed r = false) _ _ reg); [..|done].
  - intros r. by case_decide.
  - etrans; [apply drop_index_selected|].
    rewrite (list_filter_iff _ (λ r, removed r = false)); [done|].
    intros r. by destruct (removed r).
  - exact Hu.
Qed.

Lemma session_inv_restore reg :
  session_inv reg →
  session_inv
    (loc_set_removed
       (relpath <$> filter (λ r, removed r && negb (created r) = true) reg)
       false
       (drop_index (relpath <$> filter (λ r, created r = true) reg) reg)).
Proof.
  intros (Hu & Hc & Hnum). unfold loc_set_removed.
  apply (session_inv_keep (λ r, created r = false) _ _ reg); [..|done].
  - intros r. by case_decide.
  - etrans; [apply drop_index_selected|].
    rewrite (list_filter_iff _ (λ r, created r = false)); [done|].
    intros r. by destruct (created r).
  - exact Hc.
Qed.

(** *** The loops that write instances *)

Lemma dict_set_elem key row d x :
  x ∈ dict_set key row d → x = row ∨ x ∈ d.
Proof.
  induction d as [|r d IH]; simpl.
  - intros ->%list_elem_of_singleton. by left.
  - case_decide.
    + intros [->|Hx]%elem_of_cons; [by left|]. right. by right.
    + intros [->|Hx]%elem_of_cons; [right; by left|].
      destruct (IH Hx) as [->|Hd]; [by left|]. right. by right.
Qed.

Lemma dict_set_Forall (P : Row → Prop) key row d :
  P row → Forall P d → Forall P (dict_set key row d).
Proof.
  intros Hrow Hd. apply Forall_forall. intros x Hx.
  destruct (dict_set_elem _ _ _ _ Hx) as [->|Hin]; [done|].
  rewrite Forall_forall in Hd. by apply Hd.
Qed.

Lemma dict_set_NoDup {B} (f : Row → B) key row d :
  f row ∉ f <$> d → NoDup (f <$> d) → NoDup (f <$> dict_set key row d).
Proof.
  induction d as [|r d IH]; intros Hnot Hnd.
  - apply NoDup_singleton.
  - rewrite fmap_cons in Hnot, Hnd. apply not_elem_of_cons in Hnot as [Hne Hn].
    apply NoDup_cons in Hnd as [Hr Hnd]. simpl. case_decide.
    + rewrite fmap_cons. by apply NoDup_cons.
    + rewrite fmap_cons. apply NoDup_cons. split; [|by apply IH].
      intros (x & Hfx & Hx)%list_elem_of_fmap.
      destruct (dict_set_elem _ _ _ _ Hx) as [->|Hd]; [done|].
      apply Hr. rewrite Hfx. by apply list_elem_of_fmap_2.
Qed.

Section Writing.
Context `{Services}.

(** What one call of [_write_dataset] hands back. *)
Lemma write_dataset_inv self ds attr nr rows w r w' :
  _write_dataset self ds attr nr rows w = (inr r, w') →
  ∀ uid, attr !! "SeriesInstanceUID" = Some uid →
    r.1.2 !! "SeriesInstanceUID" = Some uid
    ∧ ∃ rel row, r.2 = dict_set rel row rows
                 ∧ SeriesInstanceUID row = Some uid
                 ∧ InstanceNumber row = nr.
Proof.
  unfold _write_dataset. intros Hrun uid Huid.
  apply bind_inv in Hrun as (sop & w1 & _ & Hrun). cbv zeta in Hrun.
  apply bind_inv in Hrun as (u & w2 & _ & Hrun).
  apply bind_inv in Hrun as (p & w3 & _ & Hrun).
  apply bind_inv in Hrun as (? & w4 & _ & Hrun).
  injection Hrun as <- _. simpl.
  assert ((<["InstanceNumber" := VInt nr]>
             (<["SOPInstanceUID" := VStr sop]> attr))
          !! "SeriesInstanceUID" = Some uid) as Hkeep.
  { by rewrite !lookup_insert_ne. }
  split; [done|]. eexists _, _. split; [reflexivity|]. split.
  - unfold set_values. simpl. by apply lookup_union_Some_l.
  - unfold set_values. simpl. unfold int_column.
    rewrite (lookup_union_Some_l _ _ _ (VInt nr)); [done|].
    by rewrite lookup_insert_eq.
Qed.

Lemma fold_m_cons_inv {A St} (x : A) (l : list A) (s : St) body w s' w' :
  fold_m (x :: l) s body w = (inr s', w') →
  ∃ s1 w1, body s x w = (inr s1, w1) ∧ fold_m l s1 body w1 = (inr s', w').
Proof. simpl. apply bind_inv. Qed.

(** A loop whose turns write one instance each keeps [numbering_inv]. *)
Lemma numbering_loop {St X} (attr_of : St → gmap string Value)
    (rows_of : St → list Row) (body : St → nat * X → M St) (uid : Value)
    (n : Z) :
  (∀ acc i x w acc' w',
     body acc (i, x) w = (inr acc', w') →
     attr_of acc !! "SeriesInstanceUID" = Some uid →
     attr_of acc' !! "SeriesInstanceUID" = Some uid
     ∧ ∃ rel row, rows_of acc' = dict_set rel row (rows_of acc)
                  ∧ SeriesInstanceUID row = Some uid
                  ∧ InstanceNumber row = (n + 1 + Z.of_nat i)%Z) →
  ∀ xs i acc w acc' w',
    fold_m (zip (seq i (length xs)) xs) acc body w = (inr acc', w') →
    numbering_inv uid n i (attr_of acc) (rows_of acc) →
    numbering_inv uid n (i + length xs) (attr_of acc') (rows_of acc').
Proof.
  intros Hbody xs. induction xs as [|x xs IH]; intros i acc w acc' w' Hrun Hinv.
  - injection Hrun as <- _. by rewrite Nat.add_0_r.
  - simpl in Hrun.
    apply bind_inv in Hrun as (acc1 & w1 & Hturn & Hrun).
    destruct Hinv as (Huid & Hrows & Hnd).
    destruct (Hbody _ _ _ _ _ _ Hturn Huid)
      as (Huid1 & rel & row & Hset & Hrow_uid & Hrow_nr).
    replace (i + length (x :: xs)) with (S i + length xs) by (simpl; lia).
    apply (IH _ _ _ _ _ Hrun). split; [done|]. rewrite Hset. split.
    + apply dict_set_Forall; [split; [done|lia]|].
      eapply Forall_impl; [exact Hrows|]. intros r [? ?]. split; [done|lia].
    + apply dict_set_NoDup; [|done]. rewrite Hrow_nr.
      intros (r & Heq & Hr)%list_elem_of_fmap.
      rewrite Forall_forall in Hrows. destruct (Hrows r Hr) as [_ Hlt]. lia.
Qed.

(** What [destination] returns: the dictionary names a series, and the
    number is the largest of that series in the register of the call. *)
Lemma destination_inv self e w db an w1 :
  heap w !! self = Some db →
  destination self e w = (inr an, w1) →
  ∃ uid, an.1 !! "SeriesInstanceUID" = Some uid
         ∧ an.2 = max_instance_number (register db) uid.
Proof.
  intros Hs Hrun. unfold destination in Hrun.
  apply bind_inv in Hrun as (oattr & wa & Hattr & Hrun).
  assert (heap wa = heap w) as Hwa.
  { pose proof (preserves_attributes (λ w', heap w' = heap w)
                  ltac:(congruence) self e w eq_refl) as Hp.
    by rewrite Hattr in Hp. }
  apply bind_inv in Hrun as (attr & ? & [_ ->]%lift_inv & Hrun).
  apply bind_inv in Hrun as (uid & ? & [Huid ->]%lift_inv & Hrun).
  apply bind_inv in Hrun as (n & wn & Hn & Hrun).
  injection Hrun as <- _. simpl.
  unfold _max_instance_number in Hn.
  apply bind_inv in Hn as (reg & ? & Hreg & Hn).
  apply get_register_inv in Hreg as [-> (db' & Hdb' & ->)].
  injection Hn as <- _.
  rewrite Hwa, Hs in Hdb'. injection Hdb' as <-.
  exists uid. split; [|done].
  by destruct (attr !! "SeriesInstanceUID") as [v|]; [injection Huid as ->|].
Qed.

(** The shape shared by [_files_to_series] and by the branch of
    [write_volume] for three dimensions: resolve the destination, write one
    instance per element, append the rows.  Whatever happens, the register
    of the object is the one of before with rows appended to one series,
    numbered above its largest number. *)
Lemma numbered_append {St X} self e (init : gmap string Value → St)
    (attr_of : St → gmap string Value) (rows_of : St → list Row)
    (body : Z → St → nat * X → M St) (xs : list X) w db :
  heap w !! self = Some db →
  (∀ a, attr_of (init a) = a ∧ rows_of (init a) = []) →
  (∀ n uid acc i x w acc' w',
     body n acc (i, x) w = (inr acc', w') →
     attr_of acc !! "SeriesInstanceUID" = Some uid →
     attr_of acc' !! "SeriesInstanceUID" = Some uid
     ∧ ∃ rel row, rows_of acc' = dict_set rel row (rows_of acc)
                  ∧ SeriesInstanceUID row = Some uid
                  ∧ InstanceNumber row = (n + 1 + Z.of_nat i)%Z) →
  (∀ h n acc ix, preserves (λ w', heap w' = h) (body n acc ix)) →
  ∃ new,
    heap ((an ← destination self e;
           acc ← fold_m (enumerate xs) (init an.1) (body an.2);
           _update_register self (rows_of acc)) w).2 !! self
    = Some (mkDB (path db) (register db ++ new))
    ∧ appended_to (register db) new.
Proof.
  intros Hs Hinit Hbody Hpres.
  assert (∀ w', heap w' = heap w →
            heap w' !! self = Some (mkDB (path db) (register db ++ []))
            ∧ appended_to (register db) []) as Hnone.
  { intros w' ->. rewrite app_nil_r. split; [by destruct db|].
    repeat split; [constructor|constructor|]. exists (VInt 0). constructor. }
  pose proof (preserves_destination (λ w', heap w' = heap w)
                ltac:(congruence) self e w eq_refl) as Hd.
  destruct (destination self e w) as [[x|an] w1] eqn:Hdest; simpl in Hd.
  { exists []. rewrite (bind_fail _ _ _ _ _ Hdest). by apply Hnone. }
  destruct (destination_inv _ _ _ _ _ _ Hs Hdest) as (uid & Huid & Hn).
  rewrite (bind_run _ _ _ _ _ Hdest).
  pose proof (preserves_fold_m (λ w', heap w' = heap w) (enumerate xs)
                (body an.2) (λ s x, Hpres _ _ s x) (init an.1) w1 Hd) as Hl.
  destruct (fold_m (enumerate xs) (init an.1) (body an.2) w1)
    as [[x|acc] w2] eqn:Hloop; simpl in Hl.
  { exists []. rewrite (bind_fail _ _ _ _ _ Hloop). by apply Hnone. }
  rewrite (bind_run _ _ _ _ _ Hloop).
  destruct (Hinit an.1) as [Ha0 Hr0].
  assert (numbering_inv uid an.2 (0 + length xs) (attr_of acc) (rows_of acc))
    as (_ & Hrows & Hnd).
  { eapply (numbering_loop attr_of rows_of (body an.2) uid an.2);
      [apply Hbody|exact Hloop|].
    rewrite Ha0, Hr0. split; [done|]. split; constructor. }
  assert (heap w2 !! self = Some db) as Hs2 by by rewrite Hl.
  exists (new_rows (rows_of acc)). split.
  - unfold _update_register.
    rewrite (bind_run _ _ _ _ _ (get_register_run _ _ _ Hs2)).
    rewrite (set_register_run _ _ _ _ Hs2). simpl.
    apply list_lookup_insert_eq. by eapply lookup_lt_Some.
  - split; [apply new_rows_flags|]. split.
    + unfold new_rows. rewrite <- list_fmap_compose.
      by rewrite (Forall_fmap_ext_1 _ InstanceNumber (rows_of acc))
        by (by apply Forall_forall).
    + exists uid. unfold new_rows. apply Forall_fmap.
      eapply Forall_impl; [exact Hrows|]. intros r [Hu Hlt]. simpl.
      split; [done|]. rewrite <- Hn. lia.
Qed.

Lemma files_to_series_appends self files e w db :
  heap w !! self = Some db →
  ∃ new,
    heap (_files_to_series self files e w).2 !! self
    = Some (mkDB (path db) (register db ++ new))
    ∧ appended_to (register db) new.
Proof.
  intros Hs. unfold _files_to_series.
  apply (numbered_append self e (λ a, (a, [])) fst snd
           (λ n acc i_f,
              ds ← read_dataset i_f.2;
              r ← _write_dataset self ds acc.1 (n + 1 + Z.of_nat i_f.1)%Z
                    acc.2;
              mret (r.1.2, r.2)) files w db Hs).
  - done.
  - intros n uid acc i x w0 acc' w' Hrun Huid.
    apply bind_inv in Hrun as (ds & w1 & _ & Hrun).
    apply bind_inv in Hrun as (r & w2 & Hw & Hrun).
    injection Hrun as <- _. simpl.
    by apply (write_dataset_inv _ _ _ _ _ _ _ _ Hw).
  - intros h n acc ix.
    assert (∀ w1 w2, heap w1 = heap w2 → heap w1 = h → heap w2 = h)
      by congruence.
    pres.
Qed.

End Writing.

(** *** Every operation keeps the invariant of a session *)

Lemma holds_on_allocated self P w :
  holds_on self P w → is_Some (heap w !! self).
Proof. intros (db & Hs & _). by exists db. Qed.

Lemma holds_on_local self P w w' :
  heap w !! self = heap w' !! self → holds_on self P w → holds_on self P w'.
Proof. intros Heq (db & Hs & HP). exists db. by rewrite <- Heq. Qed.

Lemma holds_on_heap_only self P w w' :
  heap w = heap w' → holds_on self P w → holds_on self P w'.
Proof. intros Heq. apply holds_on_local. by rewrite Heq. Qed.

#[local] Hint Resolve holds_on_allocated holds_on_local holds_on_heap_only
  : pres.

#[local] Hint Resolve preserves_set_register preserves_new_db
  preserves_update_register preserves_files_to_series
  preserves_multiframe_body preserves_multiframe_to_singleframe
  preserves_split_series preserves_read preserves_close preserves_restore
  preserves_delete preserves_DataBaseDicom : pres.

Section SessionSteps.
Context `{Services}.
Context (self : nat).

#[local] Abbreviation I := (holds_on self session_inv).

(** A computation that only appends numbered rows keeps the invariant. *)
Lemma appends_keep {A} (c : M A) :
  (∀ w db, heap w !! self = Some db →
     ∃ new, heap (c w).2 !! self = Some (mkDB (path db) (register db ++ new))
            ∧ appended_to (register db) new) →
  preserves I c.
Proof.
  intros Hc w (db & Hs & Hinv).
  destruct (Hc w db Hs) as (new & Hlook & Happ).
  eexists. split; [exact Hlook|]. simpl. by apply session_inv_append.
Qed.

Lemma keeps_files_to_series files e :
  preserves I (_files_to_series self files e).
Proof. apply appends_keep. intros w db. apply files_to_series_appends. Qed.

Lemma keeps_delete e : preserves I (delete self e).
Proof.
  intros w (db & Hs & Hinv). unfold delete.
  rewrite (bind_run _ _ _ _ _ (get_register_run _ _ _ Hs)).
  unfold lift, mbind, M_bind.
  destruct (register_index (register db) e) as [x|index]; [by exists db|].
  rewrite (set_register_run _ _ _ _ Hs). simpl. eexists. split.
  - apply list_lookup_insert_eq. by eapply lookup_lt_Some.
  - by apply session_inv_mark_removed.
Qed.

Lemma keeps_close : preserves I (close self).
Proof.
  intros w (db & Hs & Hinv). rewrite (close_run _ _ _ Hs). simpl.
  eexists. split.
  - apply list_lookup_insert_eq. by eapply lookup_lt_Some.
  - by apply session_inv_close.
Qed.

Lemma keeps_restore : preserves I (restore self).
Proof.
  intros w (db & Hs & Hinv). rewrite (restore_run _ _ _ Hs). simpl.
  eexists. split.
  - apply list_lookup_insert_eq. by eapply lookup_lt_Some.
  - by apply session_inv_restore.
Qed.

Hint Resolve keeps_files_to_series keeps_delete keeps_close keeps_restore
  : pres.

(** A new object is another object. *)
Ltac open_other :=
  eapply preserves_bind_val;
    [ apply (preserves_DataBaseDicom self); eauto with pres
    | apply (returns_DataBaseDicom self); eauto with pres
    | intros ? ? ].

Lemma keeps_copy_series from_series to_series :
  preserves I (_copy_series self from_series to_series).
Proof.
  unfold _copy_series.
  do 4 (apply preserves_bind; [pres|intros ?]).
  case_decide; [pres|].
  apply preserves_bind; [pres|intros ?]. open_other. pres.
Qed.

Hint Resolve keeps_copy_series : pres.

Lemma keeps_copy_study from_study to_study :
  preserves I (_copy_study self from_study to_study).
Proof.
  unfold _copy_study.
  do 2 (apply preserves_bind; [pres|intros ?]).
  apply preserves_for_each. intros from_series.
  do 3 (apply preserves_bind; [pres|intros ?]).
  apply preserves_bind; [|intros ?; pres].
  case_decide; [pres|].
  apply preserves_bind; [pres|intros ?]. open_other. pres.
Qed.

Hint Resolve keeps_copy_study : pres.

Lemma keeps_copy_patient from_patient to_patient :
  preserves I (_copy_patient self from_patient to_patient).
Proof.
  unfold _copy_patient.
  do 2 (apply preserves_bind; [pres|intros ?]).
  apply preserves_bind; [|intros ?; pres].
  apply preserves_fold_m. intros to_study from_study.
  do 2 (apply preserves_bind; [pres|intros ?]).
  apply preserves_bind; [|intros ?; pres].
  case_decide; [pres|].
  do 3 (apply preserves_bind; [pres|intros ?]). open_other. pres.
Qed.

Hint Resolve keeps_copy_patient : pres.

Lemma keeps_copy from_entity to_entity :
  preserves I (copy self from_entity to_entity).
Proof. unfold copy. pres. Qed.

Hint Resolve keeps_copy : pres.

Lemma keeps_move from_entity to_entity :
  preserves I (move self from_entity to_entity).
Proof. unfold move. pres. Qed.

End SessionSteps.

Section SessionTheorem.
Context `{Services}.

Lemma write_volume_appends self vol series ref multislice w db :
  heap w !! self = Some db →
  ∃ new,
    heap (write_volume self vol series ref multislice w).2 !! self
    = Some (mkDB (path db) (register db ++ new))
    ∧ appended_to (register db) new.
Proof.
  intros Hs.
  assert (∀ w', heap w' !! self = Some db →
            heap w' !! self = Some (mkDB (path db) (register db ++ []))
            ∧ appended_to (register db) []) as Hnone.
  { intros w' ->. rewrite app_nil_r. split; [by destruct db|].
    repeat split; [constructor|constructor|]. exists (VInt 0). constructor. }
  unfold write_volume.
  match goal with |- context [(?c ≫= _) w] => set (prefix := c) end.
  assert (preserves (λ w', heap w' !! self = Some db) prefix) as Hp.
  { assert (∀ w', heap w' !! self = Some db → is_Some (heap w' !! self))
      as Halloc by (by intros w' ->).
    assert (∀ w1 w2, heap w1 !! self = heap w2 !! self →
              heap w1 !! self = Some db → heap w2 !! self = Some db)
      as Hlocal by congruence.
    assert (∀ w1 w2, heap w1 = heap w2 →
              heap w1 !! self = Some db → heap w2 !! self = Some db)
      as Hheap by congruence.
    subst prefix. destruct ref as [ref|]; [|pres].
    do 2 (apply preserves_bind; [pres|intros ?]).
    apply preserves_bind; [|intros ?; pres].
    case_decide; [pres|].
    apply preserves_bind; [pres|intros ?].
    by apply (preserves_DataBaseDicom self). }
  pose proof (Hp w Hs) as Hs1.
  destruct (prefix w) as [[x|ds] w1] eqn:Hpre; simpl in Hs1.
  { exists []. rewrite (bind_fail _ _ _ _ _ Hpre). by apply Hnone. }
  rewrite (bind_run _ _ _ _ _ Hpre). clear Hpre Hp prefix.
  destruct (decide (vol_ndim vol = 3)) as [H3|H3].
  - apply (numbered_append self series (λ a, (ds, a, [])) (λ s, s.1.2) snd
             (λ n acc i_sl,
                let ds1 := set_volume acc.1.1 i_sl.2 multislice in
                _write_dataset self ds1 acc.1.2 (n + 1 + Z.of_nat i_sl.1)%Z
                  acc.2) (vol_split vol) w1 db Hs1).
    + done.
    + intros n uid acc i x w0 acc' w' Hrun Huid. simpl in Hrun.
      by apply (write_dataset_inv _ _ _ _ _ _ _ _ Hrun).
    + intros h n acc ix.
      assert (∀ w1 w2, heap w1 = heap w2 → heap w1 = h → heap w2 = h)
        by congruence.
      pres.
  - exists [].
    match goal with |- context [(?c) w1] =>
      assert (preserves (λ w', heap w' = heap w1) c) as Hp
    end.
    { assert (∀ wa wb, heap wa = heap wb → heap wa = heap w1 →
                heap wb = heap w1) by congruence.
      pres. }
    apply Hnone. specialize (Hp w1 eq_refl). simpl in Hp. by rewrite Hp.
Qed.

Lemma keeps_write_volume self vol series ref multislice :
  preserves (holds_on self session_inv)
    (write_volume self vol series ref multislice).
Proof. apply appends_keep. intros w db. apply write_volume_appends. Qed.

Lemma keeps_run_op self op :
  preserves (holds_on self session_inv) (run_op self op).
Proof.
  destruct op; simpl;
    auto using keeps_copy, keeps_delete, keeps_move, keeps_write_volume,
      keeps_close, keeps_restore.
Qed.

Lemma keeps_run_session self ops w :
  holds_on self session_inv w → holds_on self session_inv (run_session self ops w).
Proof.
  revert w. induction ops as [|op ops IH]; intros w Hw; [done|].
  simpl. apply IH. by apply keeps_run_op.
Qed.

Lemma appended_above reg new :
  numbered reg → appended_to reg new → above_series reg new.
Proof.
  intros Hnum (_ & _ & uid & Hnew) r r' Hr Hr' Hrem Hsame.
  rewrite Forall_forall in Hnew. destruct (Hnew r Hr) as [Huid Hgt].
  rewrite Huid in Hsame.
  pose proof (max_instance_number_ge reg uid r' Hnum Hr' Hrem Hsame). lia.
Qed.

(** C1, as the code has it.  Take a register as loading or a commit leaves
    it (no row created, no row removed) whose pairs (SeriesInstanceUID,
    InstanceNumber) are unique and whose instance numbers are not below
    [-1].  After any sequence of copies, deletions, moves, volume writes,
    commits and rollbacks, raising or not, the pairs are unique among the
    rows with [removed] unset, and one more operation keeps them so.  The
    rows that a copy of files or a volume write then appends are numbered
    strictly above every non-removed row of their series in the register
    of before the call. *)
Theorem C1_session_keeps_pairs_unique self w db (ops : list Op) :
  heap w !! self = Some db →
  loaded (register db) →
  NoDup (pair_of <$> register db) →
  numbered (register db) →
  let w1 := run_session self ops w in
  ∃ db1,
    heap w1 !! self = Some db1
    ∧ unique_pairs (register db1)
    ∧ (∀ op, holds_on self unique_pairs (run_op self op w1).2)
    ∧ (∀ files to_series, ∃ new,
         heap (_files_to_series self files to_series w1).2 !! self
         = Some (mkDB (path db1) (register db1 ++ new))
         ∧ above_series (register db1) new)
    ∧ (∀ vol series ref multislice, ∃ new,
         heap (write_volume self vol series ref multislice w1).2 !! self
         = Some (mkDB (path db1) (register db1 ++ new))
         ∧ above_series (register db1) new).
Proof.
  intros Hs Hl Hnd Hnum w1.
  assert (holds_on self session_inv w1) as (db1 & Hs1 & Hinv).
  { apply keeps_run_session. exists db. split; [done|].
    by apply loaded_session_inv. }
  exists db1. split; [done|]. split; [apply Hinv|]. split; [|split].
  - intros op.
    destruct (keeps_run_op self op w1) as (db2 & Hs2 & Hinv2);
      [by exists db1|].
    exists db2. split; [done|apply Hinv2].
  - intros files to_series.
    destruct (files_to_series_appends self files to_series w1 db1 Hs1)
      as (new & Hlook & Happ).
    exists new. split; [done|]. apply appended_above; [apply Hinv|done].
  - intros vol series ref multislice.
    destruct (write_volume_appends self vol series ref multislice w1 db1 Hs1)
      as (new & Hlook & Happ).
    exists new. split; [done|]. apply appended_above; [apply Hinv|done].
Qed.

End SessionTheorem.

(** A session on which the hypotheses of C1 hold: on [demo_world], a copy
    of the series, the deletion of the copy, a rollback. *)
Lemma C1_session_keeps_pairs_unique_witness :
  heap demo_world !! 0 = Some (mkDB "db" demo_register)
  ∧ loaded demo_register
  ∧ NoDup (pair_of <$> demo_register)
  ∧ numbered demo_register
  ∧ holds_on 0 unique_pairs
      (@run_session spec_services 0
         [OpCopy series_T1 series_T2; OpDelete series_T2; OpRestore]
         demo_world).
Proof.
  assert (loaded demo_register) as Hl.
  { apply (bool_decide_unpack _). by vm_compute. }
  assert (NoDup (pair_of <$> demo_register)) as Hnd.
  { apply (bool_decide_unpack _). by vm_compute. }
  assert (numbered demo_register) as Hnum.
  { apply (bool_decide_unpack _). by vm_compute. }
  split; [reflexivity|]. split; [exact Hl|]. split; [exact Hnd|].
  split; [exact Hnum|].
  destruct (@C1_session_keeps_pairs_unique spec_services 0 demo_world
              (mkDB "db" demo_register)
              [OpCopy series_T1 series_T2; OpDelete series_T2; OpRestore]
              eq_refl Hl Hnd Hnum) as (db1 & Hs1 & Hu & _).
  exists db1. split; [exact Hs1|exact Hu].
Defined.

(** C1, as the specification words it, fails twice.  Opening the folder
    [dup], whose two files carry the same series and the same instance
    number, gives a register whose pairs are not unique: loading does not
    establish the invariant.  And on [neg], where the pairs are unique, the
    copy of the four instances of [B] into the series [A], numbered [-5]
    and [-1], numbers them from [-4] to [-1]: the largest number is taken
    with [-1] left out, and the last copy repeats the pair of a row that is
    there. *)
Lemma C1_unique_pairs_counterexample :
  ¬ unique_pairs
      (register_of 0 (@DataBaseDicom spec_services "dup" dup_world).2)
  ∧ unique_pairs (register_of 0 neg_world)
  ∧ ¬ unique_pairs (register_of 0 neg_copied).
Proof.
  split; [|split].
  - apply (bool_decide_eq_false_1 (unique_pairs _)). by vm_compute.
  - apply (bool_decide_unpack (unique_pairs _)). by vm_compute.
  - apply (bool_decide_eq_false_1 (unique_pairs _)). by vm_compute.
Qed.

(** ** Volume assembly *)

Lemma elem_of_concat {A} (x : A) (l : list A) (ls : list (list A)) :
  x ∈ l → l ∈ ls → x ∈ concat ls.
Proof.
  intros Hx. induction ls as [|k ls IH]; [by intros ?%elem_of_nil|].
  simpl. rewrite elem_of_cons, elem_of_app. intros [<-|Hl]; auto.
Qed.

Lemma concat_mesh_cells (a : list Z) (rest : list (list Z)) :
  concat (mesh_cells (a :: rest)) = cartesian (a :: rest).
Proof. done. Qed.

Lemma length_cartesian (axes : list (list Z)) :
  length (cartesian axes) = foldr Nat.mul 1 (length <$> axes).
Proof.
  induction axes as [|a rest IH]; [done|].
  change (cartesian (a :: rest))
    with (concat ((λ x, (λ t, x :: t) <$> cartesian rest) <$> a)).
  rewrite fmap_cons. change (foldr Nat.mul 1 (length a :: (length <$> rest)))
    with (length a * foldr Nat.mul 1 (length <$> rest)).
  rewrite <- IH. generalize (cartesian rest). intros cs.
  induction a as [|x a IHa]; [done|].
  rewrite fmap_cons. simpl concat. rewrite length_app, length_fmap, IHa.
  simpl. lia.
Qed.

Lemma index_of_elem (cell : list Z) (tuples : list (list Z)) :
  cell ∈ tuples → ∃ i, index_of cell tuples = Some i.
Proof.
  intros Hin. unfold index_of.
  destruct (list_find_elem_of (λ t, t = cell) tuples cell Hin eq_refl)
    as [[i t] Hfind].
  exists i. by rewrite Hfind.
Qed.

Lemma index_of_nth (cell : list Z) (tuples : list (list Z)) (i : nat) :
  index_of cell tuples = Some i → nth i tuples [] = cell.
Proof.
  unfold index_of.
  destruct (list_find (λ t, t = cell) tuples) as [[j t]|] eqn:Hfind; [|done].
  intros [= <-]. apply list_find_Some in Hfind as (Hj & -> & _).
  by apply nth_lookup_Some with (d := []) in Hj.
Qed.

(** The coordinates of the slices placed on a row of cells are those of
    the cells. *)
Lemma placed_row (tuples : list (list Z)) (d : nat) (crow : list (list Z))
    (prow : list nat) :
  Forall2 (λ c i, index_of c tuples = Some i) crow prow →
  (λ i, nth d (nth i tuples []) 0%Z) <$> prow = (λ c, nth d c 0%Z) <$> crow.
Proof.
  induction 1 as [|c i crow prow Hci _ IH]; [done|].
  rewrite !fmap_cons, IH. by rewrite (index_of_nth _ _ _ Hci).
Qed.

Lemma placed_rows (tuples : list (list Z)) (d : nat)
    (cells : list (list (list Z))) (placed : list (list nat)) :
  Forall2 (Forall2 (λ c i, index_of c tuples = Some i)) cells placed →
  (λ row : list nat, (λ i, nth d (nth i tuples []) 0%Z) <$> row) <$> placed
  = (λ crow : list (list Z), (λ c, nth d c 0%Z) <$> crow) <$> cells.
Proof.
  induction 1 as [|crow prow cells placed Hrow _ IH]; [done|].
  rewrite !fmap_cons, IH. by rewrite (placed_row _ _ _ _ Hrow).
Qed.

(** On a complete grid every cell finds its slice: [meshvals] returns, and
    the array of coordinates is the array of the cells. *)
Lemma meshvals_complete (n : nat) (tuples : list (list Z)) :
  complete_grid (S n) tuples →
  ∃ placed, meshvals (S n) tuples = inr (grid_mesh n tuples placed).
Proof.
  intros Hgrid. set (axes := axis_values tuples <$> seq 0 (S n)).
  unfold meshvals, grid_mesh. fold axes.
  assert (concat (mesh_cells axes) = cartesian axes) as Hcells by done.
  rewrite decide_False.
  2:{ intros Hne. apply Hne. rewrite Hcells.
      by apply Permutation_length. }
  assert (is_Some (mapM (M := option)
                     (mapM (M := option) (λ c, index_of c tuples))
                     (mesh_cells axes))) as [placed Hplaced].
  { apply mapM_is_Some, Forall_forall. intros crow Hcrow. simpl.
    apply mapM_is_Some, Forall_forall. intros c Hc. simpl.
    destruct (index_of_elem c tuples) as [i Hi]; [|by exists i].
    unfold complete_grid in Hgrid. fold axes in Hgrid. rewrite Hgrid.
    rewrite <- Hcells. by apply (elem_of_concat c crow). }
  rewrite Hplaced. exists placed. f_equal. f_equal.
  apply Forall_fmap_ext_1, Forall_forall. intros d _.
  apply placed_rows.
  apply mapM_Some_1 in Hplaced.
  eapply Forall2_impl; [exact Hplaced|]. intros crow prow Hrow.
  by apply mapM_Some_1 in Hrow.
Qed.

Lemma nth_fmap_const {A B} (f : A → B) (b d : B) (l : list A) (k : nat) :
  (∀ x, f x = b) → k < length l → nth k (f <$> l) d = b.
Proof.
  intros Hf. revert k. induction l as [|x l IH]; intros k Hk; simpl in *;
    [lia|].
  destruct k as [|k]; [apply Hf|]. apply IH. lia.
Qed.

Section CompleteGrid.
Context (n : nat) (tuples : list (list Z)) (placed : list (list nat)).

#[local] Abbreviation axis0 := (axis_values tuples 0).
#[local] Abbreviation others := (axis_values tuples <$> seq 1 n).
#[local] Abbreviation grid := (grid_mesh n tuples placed).

(** The coordinates of the dimensions after the first are the same at
    every index along the slice axis. *)
Lemma slab_complete (k : nat) :
  k < length axis0 →
  slab grid k
  = (λ d, (λ c, nth (pred d) c 0%Z) <$> cartesian others) <$> seq 1 n.
Proof.
  intros Hk. unfold slab, grid_mesh. cbn [coords].
  change (seq 0 (S n)) with (0 :: seq 1 n). rewrite !fmap_cons. cbn [drop].
  rewrite drop_0.
  rewrite <- list_fmap_compose. apply Forall_fmap_ext_1, Forall_forall.
  intros d Hd. cbn [compose mesh_cells].
  rewrite <- list_fmap_compose.
  apply nth_fmap_const; [|done]. intros x. cbn [compose].
  rewrite <- list_fmap_compose. apply Forall_fmap_ext_1, Forall_forall.
  intros c _. cbn [compose].
  apply list_elem_of_In, in_seq in Hd.
  destruct d as [|d]; [lia|done].
Qed.

(** The slice positions are the same at every combination of the other
    dimensions. *)
Lemma spatial_vector_complete (j : nat) :
  j < length (cartesian others) → spatial_vector grid j = axis0.
Proof.
  intros Hj. unfold spatial_vector, grid_mesh. cbn [coords].
  change (seq 0 (S n)) with (0 :: seq 1 n). rewrite !fmap_cons.
  cbn [nth mesh_cells].
  rewrite <- !list_fmap_compose. rewrite <- (list_fmap_id axis0) at 2.
  apply Forall_fmap_ext_1, Forall_forall. intros x _. cbn [compose].
  rewrite <- list_fmap_compose. by apply nth_fmap_const.
Qed.

Lemma pages_complete : pages grid = length (cartesian others).
Proof.
  unfold pages, grid_mesh. cbn [shape].
  change (seq 0 (S n)) with (0 :: seq 1 n).
  rewrite !fmap_cons. cbn [drop]. by rewrite drop_0, length_cartesian.
Qed.

End CompleteGrid.

Section Assembly.
Context `{Services}.


End Assembly.


(** * Further properties of the class *)

(** ** The file system *)

Lemma fs_lookup_app p f g :
  fs_lookup p (f ++ g)
  = match fs_lookup p f with Some x => Some x | None => fs_lookup p g end.
Proof.
  induction f as [|[q x] f IH]; [done|]. simpl.
  by destruct (decide (q = p)).
Qed.

Lemma fs_lookup_remove p f : fs_lookup p (fs_remove p f) = None.
Proof.
  unfold fs_remove. induction f as [|[q x] f IH]; [done|].
  rewrite filter_cons. simpl. destruct (decide (q ≠ p)) as [Hne|Heq]; [|done].
  simpl. by rewrite decide_False.
Qed.

Lemma fs_lookup_remove_ne p q f :
  p ≠ q → fs_lookup p (fs_remove q f) = fs_lookup p f.
Proof.
  intros Hpq. unfold fs_remove. induction f as [|[k x] f IH]; [done|].
  rewrite filter_cons. simpl. destruct (decide (k ≠ q)) as [Hne|Heq]; simpl.
  - by rewrite IH.
  - rewrite IH. apply dec_stable in Heq. subst k. by rewrite decide_False.
Qed.

(** What is written is what is read back. *)
Lemma fs_lookup_write p x f : fs_lookup p (fs_write p x f) = Some x.
Proof.
  unfold fs_write. rewrite fs_lookup_app, fs_lookup_remove. simpl.
  by rewrite decide_True.
Qed.

Lemma fs_lookup_write_ne p q x f :
  p ≠ q → fs_lookup p (fs_write q x f) = fs_lookup p f.
Proof.
  intros Hpq. unfold fs_write.
  rewrite fs_lookup_app, fs_lookup_remove_ne by done.
  destruct (fs_lookup p f); [done|]. simpl. by rewrite decide_False.
Qed.

Lemma fs_exists_lookup p f x : fs_lookup p f = Some x → fs_exists p f = true.
Proof. intros Hx. unfold fs_exists. rewrite Hx. by apply bool_decide_eq_true. Qed.

Lemma fs_exists_remove p f : fs_exists p (fs_remove p f) = false.
Proof.
  unfold fs_exists. rewrite fs_lookup_remove. apply bool_decide_eq_false.
  by intros [x Hx].
Qed.

(** ** What [close] and [restore] leave *)

(** Whatever the register, the rows that [close] keeps are neither created
    nor removed. *)
Lemma close_register_loaded reg :
  loaded
    (loc_set_created
       (relpath <$> filter (λ r, created r && negb (removed r) = true) reg)
       false
       (drop_index (relpath <$> filter (λ r, removed r = true) reg) reg)).
Proof.
  unfold loaded, loc_set_created, drop_index.
  apply Forall_fmap, Forall_forall.
  intros r [Hlabel Hr]%list_elem_of_filter. simpl.
  assert (removed r = false) as Hrem.
  { destruct (removed r) eqn:E; [|done]. destruct Hlabel.
    apply list_elem_of_fmap_2. by apply list_elem_of_filter. }
  case_decide as Hin; [done|]. split; [done|].
  destruct (created r) eqn:E; [|done]. destruct Hin.
  apply list_elem_of_fmap_2, list_elem_of_filter. by rewrite E, Hrem.
Qed.

Lemma restore_register_loaded reg :
  loaded
    (loc_set_removed
       (relpath <$> filter (λ r, removed r && negb (created r) = true) reg)
       false
       (drop_index (relpath <$> filter (λ r, created r = true) reg) reg)).
Proof.
  unfold loaded, loc_set_removed, drop_index.
  apply Forall_fmap, Forall_forall.
  intros r [Hlabel Hr]%list_elem_of_filter. simpl.
  assert (created r = false) as Hc.
  { destruct (created r) eqn:E; [|done]. destruct Hlabel.
    apply list_elem_of_fmap_2. by apply list_elem_of_filter. }
  case_decide as Hin; [done|]. split; [|done].
  destruct (removed r) eqn:E; [|done]. destruct Hin.
  apply list_elem_of_fmap_2, list_elem_of_filter. by rewrite E, Hc.
Qed.

(** The snapshot [close] writes holds the register it leaves. *)
Lemma close_snapshot self w db :
  heap w !! self = Some db →
  fs_lookup (snapshot_file (path db)) (fs (close self w).2)
  = Some (FPickle (Some (register_of self (close self w).2))).
Proof.
  intros Hs. rewrite (close_run _ _ _ Hs). cbv zeta. unfold register_of. simpl.
  rewrite list_lookup_insert_eq by by eapply lookup_lt_Some. simpl.
  apply fs_lookup_write.
Qed.



Section Reopening.
Context `{Services}.

(** What [DataBaseDicom] runs once the object is allocated. *)
Lemma DataBaseDicom_run p w :
  DataBaseDicom p w
  = ((if fs_exists (snapshot_file p) (fs w) then
        try_except
          (match fs_lookup (snapshot_file p) (fs w) with
           | Some (FPickle (Some reg)) => set_register (length (heap w)) reg
           | _ => raise (ValueError "unpickling")
           end)
          (os_remove (snapshot_file p);; read (length (heap w)))
      else read (length (heap w)));;
     mret (length (heap w)))
      (mkWorld (fs w) (heap w ++ [mkDB p []]) (next_uid w)).
Proof.
  unfold DataBaseDicom.
  assert (new_db p w
          = (inr (length (heap w)),
             mkWorld (fs w) (heap w ++ [mkDB p []]) (next_uid w)))
    as Hnew by done.
  run_with Hnew.
  assert (heap (mkWorld (fs w) (heap w ++ [mkDB p []]) (next_uid w))
            !! length (heap w) = Some (mkDB p [])) as Hm.
  { simpl. by rewrite lookup_app_r, Nat.sub_diag. }
  run_with (register_file_run _ _ _ Hm).
  done.
Qed.

(** X2. Closing and opening again: [DataBaseDicom] on the folder of an
    object that has just been closed returns a new object with the register
    of the closed one, read from the snapshot; it reads no instance file and
    changes no file. *)
Theorem close_then_open self w db :
  heap w !! self = Some db →
  let w1 := (close self w).2 in
  DataBaseDicom (path db) w1
  = (inr (length (heap w1)),
     mkWorld (fs w1) (heap w1 ++ [mkDB (path db) (register_of self w1)])
       (next_uid w1)).
Proof.
  intros Hs w1.
  pose proof (close_snapshot self w db Hs) as Hsnap.
  fold w1 in Hsnap. rewrite DataBaseDicom_run.
  rewrite (fs_exists_lookup _ _ _ Hsnap), Hsnap.
  unfold try_except, set_register, mbind, M_bind, mret, M_ret. simpl.
  rewrite lookup_app_r, Nat.sub_diag by done. simpl.
  rewrite insert_app_r_alt, Nat.sub_diag by done. done.
Qed.

(** X3. A snapshot that cannot be read back counts for nothing: opening the
    folder removes it and rebuilds the register from the files, as it does
    on the folder without the snapshot. *)
Theorem unreadable_snapshot_is_rebuilt p f h u x :
  fs_lookup (snapshot_file p) f = Some x →
  (∀ reg, x ≠ FPickle (Some reg)) →
  DataBaseDicom p (mkWorld f h u)
  = DataBaseDicom p (mkWorld (fs_remove (snapshot_file p) f) h u).
Proof.
  intros Hx Hbad. rewrite !DataBaseDicom_run. simpl.
  rewrite (fs_exists_lookup _ _ _ Hx), fs_exists_remove, Hx.
  unfold mbind at 1 3, M_bind at 1 3. f_equal.
  unfold try_except.
  assert ((match x with
           | FPickle (Some reg) => set_register (length h) reg
           | _ => raise (ValueError "unpickling")
           end) (mkWorld f (h ++ [mkDB p []]) u)
          = (inl (ValueError "unpickling"), mkWorld f (h ++ [mkDB p []]) u))
    as -> by (destruct x as [|[reg|]|]; try done; by destruct (Hbad reg)).
  unfold os_remove, get_fs, put_fs, mbind, M_bind. simpl.
  by rewrite (fs_exists_lookup _ _ _ Hx).
Qed.

End Reopening.

(** The folder of [demo_world], closed and opened again. *)
Lemma close_then_open_witness :
  @DataBaseDicom spec_services "db" (close 0 demo_world).2
  = (inr (length (heap (close 0 demo_world).2)),
     mkWorld (fs (close 0 demo_world).2)
       (heap (close 0 demo_world).2
        ++ [mkDB "db" (register_of 0 (close 0 demo_world).2)])
       (next_uid (close 0 demo_world).2)).
Proof.
  apply (@close_then_open spec_services 0 demo_world
           (mkDB "db" demo_register)).
  reflexivity.
Defined.

(** The folder of [demo_world] with a snapshot that cannot be read. *)
Lemma unreadable_snapshot_is_rebuilt_witness :
  @DataBaseDicom spec_services "db"
    (mkWorld (fs_write (snapshot_file "db") (FPickle None) demo_fs) [] 0)
  = @DataBaseDicom spec_services "db"
      (mkWorld
         (fs_remove (snapshot_file "db")
            (fs_write (snapshot_file "db") (FPickle None) demo_fs)) [] 0).
Proof.
  apply (@unreadable_snapshot_is_rebuilt spec_services "db"
           (fs_write (snapshot_file "db") (FPickle None) demo_fs) [] 0
           (FPickle None)).
  - apply fs_lookup_write.
  - done.
Defined.

(** ** Staged changes *)

Lemma on_object_allocated self p P w :
  on_object self p P w → is_Some (heap w !! self).
Proof. intros (db & Hs & _). by exists db. Qed.

Lemma on_object_local self p P w w' :
  heap w !! self = heap w' !! self →
  on_object self p P w → on_object self p P w'.
Proof. intros Heq (db & Hs & HP). exists db. by rewrite <- Heq. Qed.

Lemma on_object_heap_only self p P w w' :
  heap w = heap w' → on_object self p P w → on_object self p P w'.
Proof. intros Heq. apply on_object_local. by rewrite Heq. Qed.

#[local] Hint Resolve on_object_allocated on_object_local
  on_object_heap_only : pres.

Lemma filter_fmap {A B} (P : B → Prop) `{∀ y, Decision (P y)} (f : A → B)
    (l : list A) :
  filter P (f <$> l) = f <$> filter (λ x, P (f x)) l.
Proof.
  induction l as [|x l IH]; [done|]. rewrite fmap_cons, !filter_cons, IH.
  by destruct (decide (P (f x))).
Qed.

Lemma set_removed_twice b c r : set_removed b (set_removed c r) = set_removed b r.
Proof. by destruct r. Qed.

(** Appending rows of the session, and marking rows for removal, leave the
    rows that were there before the session. *)
Lemma before_session_append reg new :
  appended_to reg new → before_session (reg ++ new) = before_session reg.
Proof.
  intros [Hflags _]. unfold before_session.
  rewrite filter_app, (filter_none _ new), app_nil_r; [done|].
  eapply Forall_impl; [exact Hflags|]. intros r [_ Hc]. by rewrite Hc.
Qed.

Lemma before_session_mark index reg :
  before_session (loc_set_removed index true reg) = before_session reg.
Proof.
  unfold before_session, loc_set_removed. rewrite filter_fmap, <- list_fmap_compose.
  rewrite (filter_ext_elem _ (λ r, created r = false) reg).
  2:{ intros r _. simpl. by case_decide. }
  apply Forall_fmap_ext_1, Forall_forall. intros r _. simpl.
  case_decide; [apply set_removed_twice|done].
Qed.

Lemma before_session_loaded reg : loaded reg → before_session reg = reg.
Proof.
  intros Hl. unfold before_session. rewrite filter_all.
  - rewrite <- (list_fmap_id reg) at 2.
    apply Forall_fmap_ext_1. eapply Forall_impl; [exact Hl|].
    intros r [Hr _]. simpl. by rewrite <- Hr, set_removed_same.
  - eapply Forall_impl; [exact Hl|]. by intros r [_ Hc].
Qed.

(** With one row per label, [restore] leaves the rows of before the
    session. *)
Lemma rolled_back_before_session reg : rolled_back reg = before_session reg.
Proof.
  unfold rolled_back, before_session.
  apply Forall_fmap_ext_1, Forall_forall.
  intros r [Hc _]%list_elem_of_filter. rewrite Hc. simpl. rewrite andb_true_r.
  destruct (removed r) eqn:E; [done|]. by rewrite <- E, set_removed_same.
Qed.

Section StagingSteps.
Context `{Services}.
Context (self : nat) (p : string) (P : Register → Prop).
Hypothesis P_append :
  ∀ reg new, P reg → appended_to reg new → P (reg ++ new).
Hypothesis P_mark : ∀ index reg, P reg → P (loc_set_removed index true reg).

#[local] Abbreviation J := (on_object self p P).

(** A computation that only appends rows of the session stages. *)
Lemma appends_stage {A} (c : M A) :
  (∀ w db, heap w !! self = Some db →
     ∃ new, heap (c w).2 !! self = Some (mkDB (path db) (register db ++ new))
            ∧ appended_to (register db) new) →
  preserves J c.
Proof.
  intros Hc w (db & Hs & Hp & HP).
  destruct (Hc w db Hs) as (new & Hlook & Happ).
  eexists. split; [exact Hlook|]. simpl. split; [done|]. by apply P_append.
Qed.

Lemma stages_files_to_series files e :
  preserves J (_files_to_series self files e).
Proof. apply appends_stage. intros w db. apply files_to_series_appends. Qed.

Lemma stages_write_volume vol series ref multislice :
  preserves J (write_volume self vol series ref multislice).
Proof. apply appends_stage. intros w db. apply write_volume_appends. Qed.

Lemma stages_delete e : preserves J (delete self e).
Proof.
  intros w (db & Hs & Hp & HP). unfold delete.
  rewrite (bind_run _ _ _ _ _ (get_register_run _ _ _ Hs)).
  unfold lift, mbind, M_bind.
  destruct (register_index (register db) e) as [x|index]; [by exists db|].
  rewrite (set_register_run _ _ _ _ Hs). simpl. eexists. split.
  - apply list_lookup_insert_eq. by eapply lookup_lt_Some.
  - split; [done|]. by apply P_mark.
Qed.

Hint Resolve stages_files_to_series stages_delete : pres.

Ltac open_another :=
  eapply preserves_bind_val;
    [ apply (preserves_DataBaseDicom self); eauto with pres
    | apply (returns_DataBaseDicom self); eauto with pres
    | intros ? ? ].

Lemma stages_copy_series from_series to_series :
  preserves J (_copy_series self from_series to_series).
Proof.
  unfold _copy_series.
  do 4 (apply preserves_bind; [pres|intros ?]).
  case_decide; [pres|].
  apply preserves_bind; [pres|intros ?]. open_another. pres.
Qed.

Hint Resolve stages_copy_series : pres.

Lemma stages_copy_study from_study to_study :
  preserves J (_copy_study self from_study to_study).
Proof.
  unfold _copy_study.
  do 2 (apply preserves_bind; [pres|intros ?]).
  apply preserves_for_each. intros from_series.
  do 3 (apply preserves_bind; [pres|intros ?]).
  apply preserves_bind; [|intros ?; pres].
  case_decide; [pres|].
  apply preserves_bind; [pres|intros ?]. open_another. pres.
Qed.

Hint Resolve stages_copy_study : pres.

Lemma stages_copy_patient from_patient to_patient :
  preserves J (_copy_patient self from_patient to_patient).
Proof.
  unfold _copy_patient.
  do 2 (apply preserves_bind; [pres|intros ?]).
  apply preserves_bind; [|intros ?; pres].
  apply preserves_fold_m. intros to_study from_study.
  do 2 (apply preserves_bind; [pres|intros ?]).
  apply preserves_bind; [|intros ?; pres].
  case_decide; [pres|].
  do 3 (apply preserves_bind; [pres|intros ?]). open_another. pres.
Qed.

Hint Resolve stages_copy_patient : pres.

Lemma stages_copy from_entity to_entity :
  preserves J (copy self from_entity to_entity).
Proof. unfold copy. pres. Qed.

Hint Resolve stages_copy : pres.

Lemma stages_move from_entity to_entity :
  preserves J (move self from_entity to_entity).
Proof. unfold move. pres. Qed.

Lemma stages_run_op op : staging op = true → preserves J (run_op self op).
Proof.
  destruct op; simpl; try done; intros _;
    auto using stages_copy, stages_delete, stages_move, stages_write_volume.
Qed.

Lemma stages_run_session ops w :
  forallb staging ops = true → J w → J (run_session self ops w).
Proof.
  revert w. induction ops as [|op ops IH]; intros w Hops Hw; [done|].
  simpl in Hops. apply andb_prop in Hops as [Hop Hops].
  simpl. apply IH; [done|]. by apply stages_run_op.
Qed.

End StagingSteps.

Section Rollback.
Context `{Services}.

(** X4. A session is undone by [restore]: from a register with no staged
    change, after any sequence of [copy], [delete], [move] and
    [write_volume], whether they return or raise, [restore] gives back the
    register of the start, provided the rows of the register still have one
    label each. *)
Theorem session_rolls_back self w db (ops : list Op) :
  heap w !! self = Some db →
  loaded (register db) →
  forallb staging ops = true →
  let w' := run_session self ops w in
  NoDup (relpath <$> register_of self w') →
  register_of self (restore self w').2 = register db.
Proof.
  intros Hs Hl Hops w' Hnd.
  assert (on_object self (path db)
            (λ reg, before_session reg = register db) w') as (db' & Hs' & _ & Hb).
  { apply stages_run_session; [| |done|].
    - intros reg new <- Happ. by apply before_session_append.
    - intros index reg <-. apply before_session_mark.
    - exists db. split; [done|]. split; [done|]. by apply before_session_loaded. }
  unfold register_of in Hnd. rewrite Hs' in Hnd. simpl in Hnd.
  rewrite (restore_run _ _ _ Hs'). cbv zeta. unfold register_of. simpl.
  rewrite list_lookup_insert_eq by by eapply lookup_lt_Some. simpl.
  by rewrite restore_register, rolled_back_before_session.
Qed.

End Rollback.

(** A session on the folder of [demo_world]: a copy, then the deletion of
    the series copied, undone by [restore]. *)
Lemma session_rolls_back_witness :
  register_of 0
    (restore 0
       (@run_session spec_services 0
          [OpCopy series_T1 series_T2; OpDelete series_T1] demo_world)).2
  = demo_register.
Proof.
  apply (@session_rolls_back spec_services 0 demo_world
           (mkDB "db" demo_register)
           [OpCopy series_T1 series_T2; OpDelete series_T1]).
  - by vm_compute.
  - apply (bool_decide_unpack _). by vm_compute.
  - reflexivity.
  - apply (bool_decide_unpack _). by vm_compute.
Defined.

(** ** The functions of [api.py] *)

Section PathKept.
Context `{Services}.
Context (self : nat) (p : string).

#[local] Abbreviation K := (on_object self p (λ _, True)).

Lemma kept_set_register reg : preserves K (set_register self reg).
Proof.
  intros w (db & Hs & Hp & _). rewrite (set_register_run _ _ _ _ Hs). simpl.
  eexists. split.
  - apply list_lookup_insert_eq. by eapply lookup_lt_Some.
  - by split.
Qed.

Lemma kept_files_to_series files e :
  preserves K (_files_to_series self files e).
Proof. by apply stages_files_to_series. Qed.

Hint Resolve kept_set_register kept_files_to_series : pres.

Lemma kept_read : preserves K (read self).
Proof.
  unfold read, _multiframe_to_singleframe, multiframe_body, _split_series,
    series, studies, patients.
  pres.
Qed.

Lemma kept_staged {A} (c : M A) :
  (∀ P, (∀ reg new, P reg → appended_to reg new → P (reg ++ new)) →
        (∀ index reg, P reg → P (loc_set_removed index true reg)) →
        preserves (on_object self p P) c) →
  preserves K c.
Proof. intros Hc. by apply Hc. Qed.

End PathKept.

Section Api.
Context `{Services}.

Lemma bind_assoc_run {A B C} (c : M A) (f : A → M B) (g : B → M C) w :
  ((c ≫= f) ≫= g) w = (c ≫= (λ x, f x ≫= g)) w.
Proof. unfold mbind, M_bind. by destruct (c w) as [[e|x] w1]. Qed.

Lemma bind_ext_run {A B} (c : M A) (f g : A → M B) w :
  (∀ x w1, f x w1 = g x w1) → (c ≫= f) w = (c ≫= g) w.
Proof. intros Hfg. unfold mbind, M_bind. by destruct (c w) as [[e|x] w1]. Qed.

(** The object [DataBaseDicom] returns is new, and of the folder asked. *)
Lemma DataBaseDicom_object p w m w1 :
  DataBaseDicom p w = (inr m, w1) →
  m = length (heap w) ∧ on_object m p (λ _, True) w1.
Proof.
  rewrite DataBaseDicom_run. intros Hrun.
  apply bind_inv in Hrun as (u & w2 & Hrun & [= <- <-]).
  split; [done|].
  match type of Hrun with ?c ?w0 = _ =>
    assert (preserves (on_object (length (heap w)) p (λ _, True)) c) as Hc;
    [|specialize (Hc w0); rewrite Hrun in Hc; apply Hc]
  end.
  - pose proof (kept_read (length (heap w)) p).
    pose proof (kept_set_register (length (heap w)) p).
    pres.
  - eexists. split; [simpl; by rewrite lookup_app_r, Nat.sub_diag|done].
Qed.

(** With a snapshot that can be read, [DataBaseDicom] takes its register
    and touches nothing else. *)
Lemma open_snapshot p w reg :
  fs_lookup (snapshot_file p) (fs w) = Some (FPickle (Some reg)) →
  DataBaseDicom p w
  = (inr (length (heap w)),
     mkWorld (fs w) (heap w ++ [mkDB p reg]) (next_uid w)).
Proof.
  intros Hsnap. rewrite DataBaseDicom_run.
  rewrite (fs_exists_lookup _ _ _ Hsnap), Hsnap.
  unfold try_except, set_register, mbind, M_bind, mret, M_ret. simpl.
  rewrite lookup_app_r, Nat.sub_diag by done. simpl.
  rewrite insert_app_r_alt, Nat.sub_diag by done. done.
Qed.

Lemma open_root_object e w m w1 :
  open_root e w = (inr m, w1) →
  ∃ root, first_label e = inr (Name root)
          ∧ m = length (heap w) ∧ on_object m root (λ _, True) w1.
Proof.
  unfold open_root, api_open. intros Hrun.
  apply bind_inv in Hrun as (l & ? & [Hl ->]%lift_inv & Hrun).
  apply bind_inv in Hrun as (root & ? & [Hroot ->]%lift_inv & Hrun).
  exists root. destruct l as [s|s i]; [|done]. injection Hroot as ->.
  split; [done|]. by apply DataBaseDicom_object.
Qed.

(** X6. Every function of [api.py] that changes a folder commits before it
    returns: when [copy], [delete], [move] or [write_volume] returns, the
    snapshot file of the folder named by the first element of the entity
    holds the register of the object the call opened, and no row of that
    register is created or removed. *)
Theorem api_call_commits (c : ApiCall) w w' :
  run_call c w = (inr tt, w') →
  ∃ root reg,
    first_label (call_entity c) = inr (Name root)
    ∧ heap w' !! length (heap w) = Some (mkDB root reg)
    ∧ fs_lookup (snapshot_file root) (fs w') = Some (FPickle (Some reg))
    ∧ loaded reg.
Proof.
  intros Hrun.
  assert (∃ (body : nat → M unit),
            (∀ m root, preserves (on_object m root (λ _, True)) (body m))
            ∧ run_call c w = (dbd ← open_root (call_entity c);
                              body dbd;; close dbd) w)
    as (body & Hbody & Hc).
  { destruct c as [a b|e|a b|vol e ref multislice]; simpl.
    - exists (λ m, copy m a b). split; [|done].
      intros m root. by apply stages_copy.
    - exists (λ m, delete m e). split; [|done].
      intros m root. by apply stages_delete.
    - exists (λ m, move m a b). split.
      + intros m root. by apply stages_move.
      + unfold api_move, move. apply bind_ext_run. intros m w0.
        symmetry. apply bind_assoc_run.
    - exists (λ m, write_volume m vol e ref multislice). split; [|done].
      intros m root. by apply stages_write_volume. }
  rewrite Hc in Hrun.
  apply bind_inv in Hrun as (m & w1 & Hopen & Hrun).
  apply open_root_object in Hopen as (root & Hroot & -> & Hm).
  apply bind_inv in Hrun as ([] & w2 & Hb & Hrun).
  pose proof (Hbody _ root w1 Hm) as (db & Hs & <- & _).
  rewrite Hb in Hs. simpl in Hs.
  rewrite (close_run _ _ _ Hs) in Hrun. cbv zeta in Hrun.
  injection Hrun as <-. simpl.
  eexists _, _. split; [done|]. split.
  { apply list_lookup_insert_eq. by eapply lookup_lt_Some. }
  split; [apply fs_lookup_write|apply close_register_loaded].
Qed.

End Api.

(** The folder of [demo_world], one series deleted through [api.py]. *)
Lemma api_call_commits_witness :
  ∃ root reg,
    first_label series_T1 = inr (Name root)
    ∧ heap (@run_call spec_services (CallDelete series_T1) demo_world).2 !! 1
      = Some (mkDB root reg)
    ∧ fs_lookup (snapshot_file root)
        (fs (@run_call spec_services (CallDelete series_T1) demo_world).2)
      = Some (FPickle (Some reg))
    ∧ loaded reg.
Proof.
  apply (@api_call_commits spec_services (CallDelete series_T1) demo_world).
  assert ((@run_call spec_services (CallDelete series_T1) demo_world).1
          = inr tt) as Hret by (by vm_compute).
  destruct (@run_call spec_services (CallDelete series_T1) demo_world)
    as [r w']. simpl in Hret. by rewrite Hret.
Defined.

Lemma relpath_loc_set_removed index b reg :
  relpath <$> loc_set_removed index b reg = relpath <$> reg.
Proof.
  unfold loc_set_removed. rewrite <- list_fmap_compose.
  apply Forall_fmap_ext_1, Forall_forall. intros r _. simpl. by case_decide.
Qed.

(** Marking rows for removal in a register with no staged change, then
    committing: the rows marked go, the others stay as they are. *)
Lemma committed_loc_set_removed index reg :
  loaded reg →
  committed (loc_set_removed index true reg) = drop_index index reg
  ∧ filter (λ r, removed r = true) (loc_set_removed index true reg)
    = set_removed true <$> loc_rows index reg.
Proof.
  intros Hl. unfold loaded in Hl. rewrite Forall_forall in Hl.
  unfold committed, loc_set_removed, drop_index, loc_rows.
  rewrite !filter_fmap. split.
  - rewrite (filter_ext_elem _ (λ r, relpath r ∉ index) reg).
    2:{ intros r Hr. destruct (Hl r Hr) as [Hrem _].
        simpl. case_decide; simpl; [by split|by rewrite Hrem]. }
    rewrite <- list_fmap_compose.
    rewrite <- (list_fmap_id (filter _ reg)) at 2.
    apply Forall_fmap_ext_1, Forall_forall.
    intros r [Hr Hin]%list_elem_of_filter. simpl.
    rewrite decide_False by done.
    destruct (Hl r Hin) as [_ Hc].
    by rewrite <- Hc, set_created_same.
  - rewrite (filter_ext_elem _ (λ r, relpath r ∈ index) reg).
    2:{ intros r Hr. destruct (Hl r Hr) as [Hrem _].
        simpl. case_decide; simpl; [done|]. rewrite Hrem. by split. }
    apply Forall_fmap_ext_1, Forall_forall.
    intros r [Hr Hin]%list_elem_of_filter. simpl. by rewrite decide_True.
Qed.

Section ApiDelete.
Context `{Services}.

(** X5. [delete] of [api.py] on a folder with a snapshot, in closed form:
    the rows of the entity leave the register, their files leave the disk,
    the snapshot is written again with the rows that stay, and nothing
    else changes; the instance files are not read. *)
Theorem api_delete_commits (entity : Entity) (root : string) w reg index :
  first_label entity = inr (Name root) →
  fs_lookup (snapshot_file root) (fs w) = Some (FPickle (Some reg)) →
  loaded reg →
  NoDup (relpath <$> reg) →
  register_index reg entity = inr index →
  api_delete entity w
  = (inr tt,
     mkWorld
       (fs_write (snapshot_file root)
          (FPickle (Some (drop_index index reg)))
          (without (path_join root <$> (relpath <$> loc_rows index reg))
             (fs w)))
       (heap w ++ [mkDB root (drop_index index reg)])
       (next_uid w)).
Proof.
  intros He Hsnap Hl Hnd Hix. unfold api_delete.
  set (w1 := mkWorld (fs w) (heap w ++ [mkDB root reg]) (next_uid w)).
  assert (open_root entity w = (inr (length (heap w)), w1)) as Hopen.
  { unfold open_root, api_open, lift. rewrite He.
    unfold mbind, M_bind. simpl. by apply open_snapshot. }
  run_with Hopen.
  assert (heap w1 !! length (heap w) = Some (mkDB root reg)) as Hs.
  { simpl. by rewrite lookup_app_r, Nat.sub_diag. }
  assert (delete (length (heap w)) entity w1
          = (inr tt,
             mkWorld (fs w)
               (heap w ++ [mkDB root (loc_set_removed index true reg)])
               (next_uid w))) as Hdel.
  { unfold delete. run_with (get_register_run _ _ _ Hs). simpl.
    rewrite Hix. unfold lift, mbind, M_bind.
    rewrite (set_register_run _ _ _ _ Hs). simpl.
    by rewrite insert_app_r_alt, Nat.sub_diag. }
  run_with Hdel.
  match goal with |- close _ ?w2 = _ =>
    assert (heap w2 !! length (heap w)
            = Some (mkDB root (loc_set_removed index true reg))) as Hs2
      by (simpl; by rewrite lookup_app_r, Nat.sub_diag)
  end.
  rewrite (close_run _ _ _ Hs2). cbv zeta. simpl.
  rewrite close_register by by rewrite relpath_loc_set_removed.
  destruct (committed_loc_set_removed index reg Hl) as [-> ->].
  rewrite insert_app_r_alt, Nat.sub_diag by done. simpl.
  rewrite <- (list_fmap_compose (set_removed true) relpath).
  by rewrite (list_fmap_ext (relpath ∘ set_removed true) relpath).
Qed.

End ApiDelete.

(** The folder of [demo_world] once closed, and the deletion of its
    series. *)
Lemma api_delete_commits_witness :
  (@api_delete spec_services series_T1 (close 0 demo_world).2).1 = inr tt.
Proof.
  erewrite (@api_delete_commits spec_services series_T1 "db"
              (close 0 demo_world).2 demo_register).
  - reflexivity.
  - reflexivity.
  - by vm_compute.
  - apply (bool_decide_unpack _). by vm_compute.
  - apply (bool_decide_unpack _). by vm_compute.
  - by vm_compute.
Defined.

(** ** The rows one writing call appends *)

Lemma length_append (s t : string) :
  String.length (s +:+ t) = String.length s + String.length t.
Proof. induction s as [|c s IH]; simpl; [done|]. by rewrite IH. Qed.

Lemma append_inj_r (t s1 s2 : string) : s1 +:+ t = s2 +:+ t → s1 = s2.
Proof.
  revert s2. induction s1 as [|c s1 IH]; intros [|d s2] Heq; simpl in Heq.
  - done.
  - apply (f_equal String.length) in Heq.
    rewrite ?length_append in Heq. simpl in Heq.
    rewrite ?length_append in Heq. lia.
  - apply (f_equal String.length) in Heq.
    rewrite ?length_append in Heq. simpl in Heq.
    rewrite ?length_append in Heq. lia.
  - injection Heq as -> Heq. f_equal. by apply IH.
Qed.

(** Two counts, two files. *)
Lemma instance_path_inj (j k : nat) :
  instance_path j = instance_path k → j = k.
Proof.
  unfold instance_path, path_join, uid_of_nat. intros Heq.
  do 2 apply String.app_inj in Heq.
  apply append_inj_r in Heq. apply String.app_inj in Heq.
  by apply pretty_nat_inj in Heq.
Qed.

(** A key the dictionary does not hold yet goes to its end. *)
Lemma dict_set_fresh key row d :
  key ∉ relpath <$> d → dict_set key row d = d ++ [row].
Proof.
  induction d as [|r d IH]; intros Hk; simpl; [done|].
  rewrite fmap_cons, not_elem_of_cons in Hk. destruct Hk as [Hne Hk].
  rewrite decide_False by done. by rewrite IH.
Qed.

Lemma written_before_fresh (n k : nat) rows :
  written_before n rows → (n ≤ k)%nat → instance_path k ∉ relpath <$> rows.
Proof.
  intros Hw Hk (r & Heq & Hr)%list_elem_of_fmap.
  unfold written_before in Hw. rewrite Forall_forall in Hw.
  destruct (Hw r Hr) as (j & Hj & Hrel). rewrite Hrel in Heq.
  apply instance_path_inj in Heq. lia.
Qed.

Lemma written_before_mono (n m : nat) rows :
  (n ≤ m)%nat → written_before n rows → written_before m rows.
Proof.
  intros Hnm Hw. eapply Forall_impl; [exact Hw|].
  intros r (k & Hk & Hr). exists k. split; [lia|done].
Qed.

Lemma read_dataset_inv p w ds w' :
  read_dataset p w = (inr ds, w') → w' = w.
Proof.
  unfold read_dataset, get_fs, mbind, M_bind, raise, mret, M_ret.
  destruct (fs_lookup p (fs w)) as [[| |]|]; simpl; congruence.
Qed.

Section ExactWriting.
Context `{Services}.

(** [_write_dataset] on an allocated object returns; it draws two UIDs, the
    second names the file, and the row it records is keyed by that file. *)
Lemma write_dataset_exact self ds attr nr rows w db uid :
  heap w !! self = Some db →
  attr !! "SeriesInstanceUID" = Some uid →
  ∃ ds' attr' row w',
    _write_dataset self ds attr nr rows w
    = (inr (ds', attr',
            dict_set (instance_path (S (next_uid w))) row rows), w')
    ∧ attr' !! "SeriesInstanceUID" = Some uid
    ∧ relpath row = instance_path (S (next_uid w))
    ∧ SeriesInstanceUID row = Some uid
    ∧ InstanceNumber row = nr
    ∧ heap w' = heap w
    ∧ next_uid w' = S (S (next_uid w)).
Proof.
  intros Hs Huid. unfold _write_dataset.
  assert (new_uid w = (inr (uid_of_nat (next_uid w)),
                       mkWorld (fs w) (heap w) (S (next_uid w)))) as H1 by done.
  run_with H1.
  match goal with |- context [(new_uid ≫= _) ?w1] =>
    assert (new_uid w1 = (inr (uid_of_nat (S (next_uid w))),
                          mkWorld (fs w) (heap w) (S (S (next_uid w)))))
      as H2 by done
  end.
  run_with H2.
  match goal with |- context [(get_path self ≫= _) ?w2] =>
    assert (heap w2 !! self = Some db) as Hs2 by done;
    run_with (get_path_run _ _ _ Hs2)
  end.
  unfold write_dataset_file, get_fs, put_fs, mbind, M_bind, mret, M_ret.
  simpl. fold (instance_path (S (next_uid w))).
  eexists _, _, _, _. split; [reflexivity|]. simpl.
  assert ((<["InstanceNumber" := VInt nr]>
             (<["SOPInstanceUID" := VStr (uid_of_nat (next_uid w))]> attr))
          !! "SeriesInstanceUID" = Some uid) as Hkeep.
  { by rewrite !lookup_insert_ne. }
  split; [done|]. split; [done|]. split.
  { unfold set_values. by apply lookup_union_Some_l. }
  split; [|done].
  unfold set_values, int_column.
  rewrite (lookup_union_Some_l _ _ _ (VInt nr)); [done|].
  by rewrite lookup_insert_eq.
Qed.

(** A loop whose turns write one instance each, when it returns: the
    dictionary holds one more row per turn, in the order of the turns,
    numbered from [n + 1 + i] on, each keyed by a file of its own. *)
Lemma exact_loop {St X} self db (attr_of : St → gmap string Value)
    (rows_of : St → list Row) (body : St → nat * X → M St) (uid : Value)
    (n : Z) :
  (∀ acc i x w acc' w',
     heap w !! self = Some db →
     body acc (i, x) w = (inr acc', w') →
     attr_of acc !! "SeriesInstanceUID" = Some uid →
     attr_of acc' !! "SeriesInstanceUID" = Some uid
     ∧ heap w' = heap w
     ∧ next_uid w' = S (S (next_uid w))
     ∧ ∃ row, rows_of acc'
              = dict_set (instance_path (S (next_uid w))) row (rows_of acc)
              ∧ relpath row = instance_path (S (next_uid w))
              ∧ SeriesInstanceUID row = Some uid
              ∧ InstanceNumber row = (n + 1 + Z.of_nat i)%Z) →
  ∀ xs i acc w acc' w',
    heap w !! self = Some db →
    fold_m (zip (seq i (length xs)) xs) acc body w = (inr acc', w') →
    attr_of acc !! "SeriesInstanceUID" = Some uid →
    written_before (next_uid w) (rows_of acc) →
    heap w' = heap w
    ∧ written_before (next_uid w') (rows_of acc')
    ∧ ∃ new, rows_of acc' = rows_of acc ++ new
             ∧ InstanceNumber <$> new = numbers_from n i (length xs)
             ∧ Forall (λ r, SeriesInstanceUID r = Some uid) new
             ∧ (NoDup (relpath <$> rows_of acc) →
                NoDup (relpath <$> rows_of acc')).
Proof.
  intros Hbody xs. induction xs as [|x xs IH];
    intros i acc w acc' w' Hs Hrun Huid Hw.
  - simpl in Hrun. injection Hrun as <- <-. split; [done|]. split; [done|].
    exists []. rewrite app_nil_r. by repeat split.
  - simpl in Hrun.
    apply fold_m_cons_inv in Hrun as (acc1 & w1 & Hturn & Hrun).
    destruct (Hbody _ _ _ _ _ _ Hs Hturn Huid)
      as (Huid1 & Hh1 & Hn1 & row & Hrows & Hrel & Hu & Hnr).
    assert (instance_path (S (next_uid w)) ∉ relpath <$> rows_of acc)
      as Hfresh by (eapply written_before_fresh; [exact Hw|lia]).
    rewrite (dict_set_fresh _ _ _ Hfresh) in Hrows.
    assert (heap w1 !! self = Some db) as Hs1 by by rewrite Hh1.
    assert (written_before (next_uid w1) (rows_of acc1)) as Hw1.
    { rewrite Hrows, Hn1. unfold written_before. apply Forall_app. split.
      - eapply written_before_mono; [|exact Hw]. lia.
      - constructor; [|constructor]. exists (S (next_uid w)). split; [lia|done]. }
    destruct (IH (S i) acc1 w1 acc' w' Hs1 Hrun Huid1 Hw1)
      as (Hh & Hw' & new & Hnew & Hnums & Huids & Hnd).
    split; [congruence|]. split; [done|].
    exists (row :: new). split.
    { rewrite Hnew, Hrows, <- app_assoc. done. }
    split.
    { unfold numbers_from in *.
      change (seq i (length (x :: xs))) with (i :: seq (S i) (length xs)).
      by rewrite !fmap_cons, Hnr, Hnums. }
    split; [by constructor|].
    intros Hnd0. apply Hnd. rewrite Hrows, fmap_app. apply NoDup_app.
    split; [done|]. split.
    + intros s Hin. simpl. rewrite list_elem_of_singleton. intros ->.
      rewrite Hrel in Hin. done.
    + simpl. apply NoDup_singleton.
Qed.

(** The writing call, when it returns. *)
Lemma exact_append {St X} self e (init : gmap string Value → St)
    (attr_of : St → gmap string Value) (rows_of : St → list Row)
    (body : Z → St → nat * X → M St) (xs : list X) w w' db :
  heap w !! self = Some db →
  (∀ a, attr_of (init a) = a ∧ rows_of (init a) = []) →
  (∀ n uid acc i x w acc' w',
     heap w !! self = Some db →
     body n acc (i, x) w = (inr acc', w') →
     attr_of acc !! "SeriesInstanceUID" = Some uid →
     attr_of acc' !! "SeriesInstanceUID" = Some uid
     ∧ heap w' = heap w
     ∧ next_uid w' = S (S (next_uid w))
     ∧ ∃ row, rows_of acc'
              = dict_set (instance_path (S (next_uid w))) row (rows_of acc)
              ∧ relpath row = instance_path (S (next_uid w))
              ∧ SeriesInstanceUID row = Some uid
              ∧ InstanceNumber row = (n + 1 + Z.of_nat i)%Z) →
  (an ← destination self e;
   acc ← fold_m (enumerate xs) (init an.1) (body an.2);
   _update_register self (rows_of acc)) w = (inr tt, w') →
  ∃ uid new,
    heap w' !! self = Some (mkDB (path db) (register db ++ new))
    ∧ InstanceNumber <$> new
      = numbers_from (max_instance_number (register db) uid) 0 (length xs)
    ∧ Forall (λ r, SeriesInstanceUID r = Some uid
                   ∧ created r = true ∧ removed r = false) new
    ∧ NoDup (relpath <$> new).
Proof.
  intros Hs Hinit Hbody Hrun.
  apply bind_inv in Hrun as (an & w1 & Hdest & Hrun).
  apply bind_inv in Hrun as (acc & w2 & Hloop & Hrun).
  pose proof (preserves_destination (λ w', heap w' = heap w)
                ltac:(congruence) self e w eq_refl) as Hd.
  rewrite Hdest in Hd. simpl in Hd.
  destruct (destination_inv _ _ _ _ _ _ Hs Hdest) as (uid & Huid & Hn).
  destruct (Hinit an.1) as [Ha0 Hr0].
  assert (heap w1 !! self = Some db) as Hs1 by by rewrite Hd.
  destruct (exact_loop self db attr_of rows_of (body an.2) uid an.2
              (Hbody an.2 uid) xs 0 (init an.1) w1 acc w2 Hs1 Hloop)
    as (Hh2 & _ & new & Hnew & Hnums & Huids & Hnd).
  { by rewrite Ha0. }
  { rewrite Hr0. constructor. }
  rewrite Hr0 in Hnew, Hnd. simpl in Hnew.
  assert (heap w2 !! self = Some db) as Hs2 by by rewrite Hh2.
  unfold _update_register in Hrun.
  rewrite (bind_run _ _ _ _ _ (get_register_run _ _ _ Hs2)) in Hrun.
  rewrite (set_register_run _ _ _ _ Hs2) in Hrun. injection Hrun as <-.
  exists uid, (new_rows new). simpl. rewrite Hnew. split.
  { apply list_lookup_insert_eq. by eapply lookup_lt_Some. }
  unfold new_rows. rewrite <- !list_fmap_compose. split.
  { rewrite <- Hn, <- Hnums. by apply list_fmap_ext. }
  split.
  { apply Forall_fmap. eapply Forall_impl; [exact Huids|]. by intros r Hr. }
  rewrite (list_fmap_ext _ relpath new) by done.
  rewrite <- Hnew. apply Hnd. constructor.
Qed.



End ExactWriting.



(** ** Copies to another folder *)

Section CrossRoot.
Context `{Services}.

(** X9. A series copied to another folder: the object the copy is asked of
    keeps its register, whether the copy returns or raises, since the rows
    go to an object opened on the other folder; and when the copy returns,
    that object has been closed: the snapshot file of the other folder
    holds its register, with no row created or removed. *)
Theorem copy_series_cross_root self from_series to_series w db root f0 :
  heap w !! self = Some db →
  first_label from_series = inr f0 →
  first_label to_series = inr (Name root) →
  Name root ≠ f0 →
  let r := _copy_series self from_series to_series w in
  heap r.2 !! self = Some db
  ∧ (r.1 = inr tt →
     ∃ reg,
       heap r.2 !! length (heap w) = Some (mkDB root reg)
       ∧ fs_lookup (snapshot_file root) (fs r.2) = Some (FPickle (Some reg))
       ∧ loaded reg).
Proof.
  intros Hs Hf Ht Hne r.
  destruct (register_files (register db) from_series) as [x|files] eqn:Hfiles.
  { assert (r = (inl x, w)) as ->; [|by split].
    subst r. unfold _copy_series. run_with (get_register_run _ _ _ Hs).
    by rewrite Hfiles. }
  assert (r = (mgr ← DataBaseDicom root;
               _files_to_series mgr files to_series;; close mgr) w) as Hr.
  { subst r. unfold _copy_series. run_with (get_register_run _ _ _ Hs).
    rewrite Hfiles, Ht, Hf.
    run_with (eq_refl : lift (inr files : Exn + list string) w = (inr files, w)).
    run_with (eq_refl : lift (inr (Name root) : Exn + Label) w
                        = (inr (Name root), w)).
    run_with (eq_refl : lift (inr f0 : Exn + Label) w = (inr f0, w)).
    rewrite decide_False by done.
    by run_with (eq_refl : lift (folder_of (Name root)) w = (inr root, w)). }
  rewrite Hr. clear Hr r.
  set (I0 := λ w', heap w' !! self = Some db).
  assert (∀ w', I0 w' → is_Some (heap w' !! self)) as Halloc
    by (by intros w0 ->).
  assert (∀ w1 w2, heap w1 !! self = heap w2 !! self → I0 w1 → I0 w2)
    as Hlocal by (unfold I0; congruence).
  assert (∀ w1 w2, heap w1 = heap w2 → I0 w1 → I0 w2)
    as Hheap by (unfold I0; congruence).
  pose proof (preserves_DataBaseDicom self I0 Halloc Hlocal root w Hs) as Hw1.
  pose proof (returns_DataBaseDicom self I0 Halloc Hlocal root w) as Hmgr.
  destruct (DataBaseDicom root w) as [[x|mgr] w1] eqn:Hopen; simpl in Hw1.
  { rewrite (bind_fail _ _ _ _ _ Hopen). by split. }
  specialize (Hmgr mgr w1 Hs eq_refl).
  run_with Hopen.
  apply DataBaseDicom_object in Hopen as [-> Hobj].
  assert (preserves I0
            (_files_to_series (length (heap w)) files to_series)) as Hpf
    by (eapply (preserves_files_to_series self); eauto).
  pose proof (Hpf w1 Hw1) as Hw2.
  pose proof (kept_files_to_series (length (heap w)) root files to_series
                w1 Hobj) as Hobj2.
  destruct (_files_to_series (length (heap w)) files to_series w1)
    as [[x|[]] w2] eqn:Hcopy; simpl in Hw2, Hobj2.
  { rewrite (bind_fail _ _ _ _ _ Hcopy). by split. }
  run_with Hcopy.
  assert (preserves I0 (close (length (heap w)))) as Hpc
    by (eapply (preserves_close self); eauto).
  pose proof (Hpc w2 Hw2) as Hw3.
  split; [exact Hw3|]. intros _.
  destruct Hobj2 as (dbt & Hst & <- & _).
  rewrite (close_run _ _ _ Hst). cbv zeta. simpl.
  eexists. split.
  { rewrite list_lookup_insert_eq; [done|].
    by eapply lookup_lt_Some. }
  split; [apply fs_lookup_write|apply close_register_loaded].
Qed.

End CrossRoot.

(** The series of [demo_world] copied to a folder [other]. *)
Lemma copy_series_cross_root_witness :
  let r := @_copy_series spec_services 0 series_T1
             [Name "other"; Name "P"; Name "St"; Name "T1"] demo_world in
  heap r.2 !! 0 = Some (mkDB "db" demo_register)
  ∧ (r.1 = inr tt →
     ∃ reg,
       heap r.2 !! length (heap demo_world) = Some (mkDB "other" reg)
       ∧ fs_lookup (snapshot_file "other") (fs r.2)
         = Some (FPickle (Some reg))
       ∧ loaded reg).
Proof.
  apply (@copy_series_cross_root spec_services 0 series_T1
           [Name "other"; Name "P"; Name "St"; Name "T1"] demo_world
           (mkDB "db" demo_register) "other" (Name "db")).
  - reflexivity.
  - reflexivity.
  - reflexivity.
  - discriminate.
Defined.

(** ** What only reads *)

Lemma read_dataset_state p w : (read_dataset p w).2 = w.
Proof.
  unfold read_dataset, get_fs, mbind, M_bind, raise, mret, M_ret.
  by destruct (fs_lookup p (fs w)) as [[| |]|].
Qed.

Lemma preserves_read_dataset_any (I : World → Prop) p :
  preserves I (read_dataset p).
Proof. intros w Hw. by rewrite read_dataset_state. Qed.

Section ReadOnly.
Context `{Services}.

(** X10. A destination that is not a patient, a study or a series: with an
    address of a length other than 2, 3 and 4, resolving the destination
    raises [TypeError] ([_attributes] returns [None], which is then
    subscripted); so do [_files_to_series], whatever the files, and
    [write_volume] without reference, whatever the volume; no file is
    written, no register changed and no UID drawn. *)
Theorem unaddressed_destination_raises self files vol (e : Entity)
    multislice w :
  length e ≠ 2 → length e ≠ 3 → length e ≠ 4 →
  destination self e w = (inl TypeError, w)
  ∧ _files_to_series self files e w = (inl TypeError, w)
  ∧ write_volume self vol e None multislice w = (inl TypeError, w).
Proof.
  intros H2 H3 H4.
  assert (destination self e w = (inl TypeError, w)) as Hd.
  { unfold destination, _attributes. by rewrite !decide_False by done. }
  split; [done|]. split.
  - unfold _files_to_series. by rewrite (bind_fail _ _ _ _ _ Hd).
  - unfold write_volume.
    run_with (eq_refl : (mret (new_dataset "MRImage") : M Dataset) w
                        = (inr (new_dataset "MRImage"), w)).
    by rewrite (bind_fail _ _ _ _ _ Hd).
Qed.

(** X11. Resolving a destination only reads: whether [destination] (the
    call of [_attributes] and of [_max_instance_number] that opens every
    writing method) returns or raises, the registers and the files are the
    ones it found; all it leaves is the UIDs it has drawn. *)
Theorem destination_only_reads self (e : Entity) w :
  let w' := (destination self e w).2 in
  heap w' = heap w ∧ fs w' = fs w ∧ (next_uid w ≤ next_uid w')%nat.
Proof.
  set (I0 := λ w', heap w' = heap w ∧ fs w' = fs w
                   ∧ (next_uid w ≤ next_uid w')%nat).
  assert (preserves I0 new_uid) as Hnew.
  { intros w0 (Hh & Hf & Hn). unfold I0. simpl. repeat split; [done|done|lia]. }
  assert (∀ p, preserves I0 (read_dataset p)) as Hread
    by (intros p; apply preserves_read_dataset_any).
  assert (preserves I0 (destination self e)) as Hd.
  { unfold destination, _attributes, _series_attributes, _study_attributes,
      _patient_attributes, from_first_file, _max_series_number,
      _max_instance_number.
    pres. }
  apply Hd. unfold I0. by repeat split.
Qed.

(** X12. The queries change nothing: whether they return or raise,
    [patients], [studies], [series] and [volume] leave the registers, the
    files and the UID counter as they found them. *)
Theorem queries_change_nothing self (entity : string + Entity)
    (e : Entity) dims multislice w :
  (patients self w).2 = w
  ∧ (studies self entity w).2 = w
  ∧ (series self entity w).2 = w
  ∧ (volume self e dims multislice w).2 = w.
Proof.
  set (I0 := λ w' : World, w' = w).
  assert (∀ p, preserves I0 (read_dataset p)) as Hread
    by (intros p; apply preserves_read_dataset_any).
  assert (preserves I0 (patients self)) as Hp by (unfold patients; pres).
  assert (∀ x, preserves I0 (studies self x)) as Hst
    by (intros x; unfold studies; pres).
  assert (∀ x, preserves I0 (series self x)) as Hse
    by (intros x; unfold series; pres).
  assert (preserves I0 (volume self e dims multislice)) as Hv
    by (unfold volume; pres).
  split; [by apply Hp|]. split; [by apply Hst|]. split; [by apply Hse|].
  by apply Hv.
Qed.

End ReadOnly.

(** An address of five elements in [demo_world]. *)
Lemma unaddressed_destination_raises_witness :
  @destination spec_services 0 (series_T2 ++ [Name "x"]) demo_world
  = (inl TypeError, demo_world)
  ∧ @_files_to_series spec_services 0 ["db/a.dcm"] (series_T2 ++ [Name "x"])
      demo_world
    = (inl TypeError, demo_world)
  ∧ @write_volume spec_services 0 volume3d (series_T2 ++ [Name "x"]) None
      false demo_world
    = (inl TypeError, demo_world).
Proof.
  apply (@unaddressed_destination_raises spec_services 0 ["db/a.dcm"]
           volume3d (series_T2 ++ [Name "x"]) false demo_world);
    simpl; lia.
Defined.

(** ** The distinct values of an attribute *)

Lemma elem_of_enumerate {A} (l : list A) (i : nat) (x : A) :
  (i, x) ∈ enumerate l ↔ l !! i = Some x.
Proof.
  unfold enumerate. rewrite list_elem_of_lookup. split.
  - intros (j & [Hi Hx]%lookup_zip_Some).
    apply lookup_seq in Hi as [-> _]. done.
  - intros Hx. exists i. apply lookup_zip_Some. split; [|done].
    apply lookup_seq. split; [done|]. by eapply lookup_lt_Some.
Qed.

Lemma NoDup_enumerate {A} (l : list A) : NoDup (enumerate l).
Proof.
  apply (NoDup_fmap_1 fst). unfold enumerate.
  rewrite fst_zip by by rewrite length_seq. apply NoDup_seq.
Qed.

Lemma list_index_Some (x : Value) (va : list Value) :
  x ∈ va → ∃ i, list_index x va = Some i ∧ va !! i = Some x.
Proof.
  intros Hx. unfold list_index.
  destruct (list_find_elem_of (λ y, y = x) va x Hx eq_refl) as [[i y] Hfind].
  rewrite Hfind. exists i. split; [done|].
  by apply list_find_Some in Hfind as (Hi & -> & _).
Qed.

(** The comprehension keeps every value once. *)
Lemma elem_of_first_occurrences (x : Value) (va : list Value) :
  x ∈ first_occurrences va ↔ x ∈ va.
Proof.
  unfold first_occurrences. rewrite list_elem_of_fmap. split.
  - intros ([i y] & -> & [_ Hin]%list_elem_of_filter).
    apply elem_of_enumerate in Hin. by eapply list_elem_of_lookup_2.
  - intros Hx. destruct (list_index_Some x va Hx) as (i & Hi & Hlook).
    exists (i, x). split; [done|].
    apply list_elem_of_filter. split; [done|]. by apply elem_of_enumerate.
Qed.

Lemma NoDup_first_occurrences (va : list Value) :
  NoDup (first_occurrences va).
Proof.
  unfold first_occurrences. apply NoDup_fmap_2_strong.
  - intros [i x] [j y] [Hi _]%list_elem_of_filter [Hj _]%list_elem_of_filter.
    simpl in *. intros ->. rewrite Hi in Hj. by injection Hj as ->.
  - apply NoDup_filter, NoDup_enumerate.
Qed.

Lemma foldl_insert_other {V} (f : nat → V) (l : list (nat * string))
    (d : gmap string V) (p : string) :
  p ∉ snd <$> l →
  foldl (λ d ip, <[ip.2 := f ip.1]> d) d l !! p = d !! p.
Proof.
  revert d. induction l as [|[j q] l IH]; intros d Hp; [done|].
  rewrite fmap_cons, not_elem_of_cons in Hp. destruct Hp as [Hne Hp].
  simpl. rewrite IH by done. by rewrite lookup_insert_ne.
Qed.

Lemma foldl_insert_lookup {V} (f : nat → V) (l : list (nat * string))
    (d : gmap string V) (i : nat) (p : string) :
  NoDup (snd <$> l) → (i, p) ∈ l →
  foldl (λ d ip, <[ip.2 := f ip.1]> d) d l !! p = Some (f i).
Proof.
  revert d. induction l as [|[j q] l IH]; intros d Hnd Hin.
  - by apply elem_of_nil in Hin.
  - rewrite fmap_cons in Hnd. apply NoDup_cons in Hnd as [Hq Hnd].
    apply elem_of_cons in Hin as [[= <- <-]|Hin]; simpl.
    + rewrite foldl_insert_other by done. by rewrite lookup_insert_eq.
    + by apply IH.
Qed.

Section UniqueValues.
Context (list_sort : list Value → list Value).
Hypothesis list_sort_permutation : ∀ l, list_sort l ≡ₚ l.

(** One column: nothing when the column holds no value, the value when it
    holds one, else every value once. *)
Lemma unique_column_distinct (va : list (option Value)) :
  distinct_values_of va (unique_column list_sort va).
Proof.
  unfold unique_column.
  pose proof (NoDup_first_occurrences (omap id va)) as Hnd.
  assert (∀ x, x ∈ first_occurrences (omap id va) ↔ Some x ∈ va) as Hel.
  { intros x. rewrite elem_of_first_occurrences, list_elem_of_omap. split.
    - intros (y & Hy & Heq). simpl in Heq. by subst y.
    - intros Hx. by exists (Some x). }
  destruct (first_occurrences (omap id va)) as [|a [|b t]]; simpl.
  - intros x Hx. apply Hel in Hx. by apply elem_of_nil in Hx.
  - split.
    + apply Hel. by left.
    + intros y Hy. apply Hel in Hy. by apply list_elem_of_singleton in Hy.
  - split; [by rewrite list_sort_permutation|]. split.
    + rewrite list_sort_permutation. simpl. lia.
    + intros x. by rewrite list_sort_permutation.
Qed.

(** X13. [unique] maps every attribute asked for to the distinct values of
    its column: [None] when no instance carries a value, the value itself
    when the instances that carry one all carry the same, and otherwise a
    list of two values or more that holds every value of the column once;
    the order of that list is what the sort leaves, which the code does not
    check. *)
Theorem unique_values_distinct (pars : list string)
    (v : list (list (option Value))) (i : nat) (p : string) :
  NoDup pars → pars !! i = Some p →
  ∃ u, unique_values list_sort pars v !! p = Some u
       ∧ distinct_values_of (column i v) u.
Proof.
  intros Hnd Hp. exists (unique_column list_sort (column i v)).
  split; [|apply unique_column_distinct].
  unfold unique_values.
  rewrite (foldl_insert_lookup
             (λ a, default UNone
                     (((λ a, unique_column list_sort (column a v))
                         <$> seq 0 (length pars)) !! a))
             (enumerate pars) ∅ i p).
  - rewrite list_lookup_fmap, lookup_seq_lt by by eapply lookup_lt_Some.
    done.
  - unfold enumerate. rewrite snd_zip by by rewrite length_seq. done.
  - by apply elem_of_enumerate.
Qed.

End UniqueValues.

(** Two attributes of four instances: two numbers, one of them twice, and
    one name, which an instance does not carry. *)
Lemma unique_values_distinct_witness :
  ∃ u, unique_values (merge_sort number_le) ["InstanceNumber"; "PatientName"]
         [[Some (VInt 2); Some (VStr "P")];
          [Some (VInt 1); None];
          [Some (VInt 2); Some (VStr "P")];
          [None; Some (VStr "P")]] !! "InstanceNumber" = Some u
       ∧ distinct_values_of
           (column 0 [[Some (VInt 2); Some (VStr "P")];
                      [Some (VInt 1); None];
                      [Some (VInt 2); Some (VStr "P")];
                      [None; Some (VStr "P")]]) u.
Proof.
  apply (unique_values_distinct (merge_sort number_le)
           (merge_sort_Permutation number_le)
           ["InstanceNumber"; "PatientName"] _ 0 "InstanceNumber").
  - apply (bool_decide_unpack _). by vm_compute.
  - reflexivity.
Defined.

(** ** Committing or rolling back twice *)

Lemma fs_remove_idemp p f : fs_remove p (fs_remove p f) = fs_remove p f.
Proof.
  unfold fs_remove. rewrite list_filter_filter.
  apply list_filter_iff. intros e. tauto.
Qed.

(** Writing again what was written last leaves the files as they are. *)
Lemma fs_write_twice p x f : fs_write p x (fs_write p x f) = fs_write p x f.
Proof.
  unfold fs_write.
  assert (fs_remove p (fs_remove p f ++ [(p, x)]) = fs_remove p f) as ->;
    [|done].
  rewrite <- (fs_remove_idemp p f) at 2. unfold fs_remove at 1 3.
  rewrite filter_app, filter_cons, filter_nil. simpl.
  case_decide as Hne; [by destruct Hne|].
  by rewrite app_nil_r.
Qed.

Lemma drop_index_nil reg : drop_index [] reg = reg.
Proof.
  unfold drop_index. apply filter_all, Forall_forall.
  intros r _. apply not_elem_of_nil.
Qed.

Lemma loc_set_created_nil b reg : loc_set_created [] b reg = reg.
Proof.
  unfold loc_set_created. rewrite <- (list_fmap_id reg) at 2.
  apply list_fmap_ext. intros i r _. done.
Qed.

Lemma loc_set_removed_nil b reg : loc_set_removed [] b reg = reg.
Proof.
  unfold loc_set_removed. rewrite <- (list_fmap_id reg) at 2.
  apply list_fmap_ext. intros i r _. done.
Qed.

(** With no staged change and the snapshot written last, [close] and
    [restore] do nothing. *)
Lemma settled_close self w db f :
  heap w !! self = Some db → loaded (register db) →
  fs w = fs_write (snapshot_file (path db)) (FPickle (Some (register db))) f →
  close self w = (inr tt, w).
Proof.
  intros Hs Hl Hfs. rewrite (close_run _ _ _ Hs). cbv zeta.
  rewrite (filter_none (λ r, created r && negb (removed r) = true)).
  2:{ eapply Forall_impl; [exact Hl|]. intros r [_ ->]. done. }
  rewrite (filter_none (λ r, removed r = true)).
  2:{ eapply Forall_impl; [exact Hl|]. intros r [-> _]. done. }
  simpl. rewrite without_nil, drop_index_nil, loc_set_created_nil.
  rewrite Hfs, fs_write_twice, <- Hfs.
  destruct w as [fw hw uw], db as [p reg]. simpl in *.
  by rewrite list_insert_id.
Qed.

Lemma settled_restore self w db f :
  heap w !! self = Some db → loaded (register db) →
  fs w = fs_write (snapshot_file (path db)) (FPickle (Some (register db))) f →
  restore self w = (inr tt, w).
Proof.
  intros Hs Hl Hfs. rewrite (restore_run _ _ _ Hs). cbv zeta.
  rewrite (filter_none (λ r, removed r && negb (created r) = true)).
  2:{ eapply Forall_impl; [exact Hl|]. intros r [-> _]. done. }
  rewrite (filter_none (λ r, created r = true)).
  2:{ eapply Forall_impl; [exact Hl|]. intros r [_ ->]. done. }
  simpl. rewrite without_nil, drop_index_nil, loc_set_removed_nil.
  rewrite Hfs, fs_write_twice, <- Hfs.
  destruct w as [fw hw uw], db as [p reg]. simpl in *.
  by rewrite list_insert_id.
Qed.



(** ** The files a writing call touches *)

Section WrittenFiles.
Context `{Services}.

(** The world [_write_dataset] leaves: one file more, or one rewritten, at
    the path of a new instance; two UIDs drawn. *)
Lemma write_dataset_world self ds attr nr rows w db :
  heap w !! self = Some db →
  ∃ ds',
    (_write_dataset self ds attr nr rows w).2
    = mkWorld
        (fs_write (path_join (path db) (instance_path (S (next_uid w))))
           (FDicom ds') (fs w))
        (heap w) (S (S (next_uid w))).
Proof.
  intros Hs. unfold _write_dataset.
  assert (new_uid w = (inr (uid_of_nat (next_uid w)),
                       mkWorld (fs w) (heap w) (S (next_uid w)))) as H1 by done.
  run_with H1.
  match goal with |- context [(new_uid ≫= _) ?w1] =>
    assert (new_uid w1 = (inr (uid_of_nat (S (next_uid w))),
                          mkWorld (fs w) (heap w) (S (S (next_uid w)))))
      as H2 by done
  end.
  run_with H2.
  match goal with |- context [(get_path self ≫= _) ?w2] =>
    assert (heap w2 !! self = Some db) as Hs2 by done;
    run_with (get_path_run _ _ _ Hs2)
  end.
  unfold write_dataset_file, get_fs, put_fs, mbind, M_bind, mret, M_ret.
  simpl. eexists. reflexivity.
Qed.

Section Untouched.
Context (self : nat) (p q : string) (w : World).
Hypothesis q_not_new : ∀ k, q ≠ path_join p (instance_path k).

(** The object is of the folder [p] and the file [q] is as it was. *)
#[local] Abbreviation still :=
  (λ w', on_object self p (λ _, True) w'
         ∧ fs_lookup q (fs w') = fs_lookup q (fs w)).

Lemma still_new_uid : preserves still new_uid.
Proof. by intros w0 Hw0. Qed.

Lemma still_read_dataset f : preserves still (read_dataset f).
Proof. apply preserves_read_dataset_any. Qed.

Lemma still_set_register reg : preserves still (set_register self reg).
Proof.
  intros w0 [Hobj Hq0]. split; [by apply kept_set_register|].
  destruct Hobj as (db0 & Hs0 & _). by rewrite (set_register_run _ _ _ _ Hs0).
Qed.

Lemma still_write_dataset ds attr nr rows :
  preserves still (_write_dataset self ds attr nr rows).
Proof.
  intros w0 [(db0 & Hs0 & <- & _) Hq0].
  destruct (write_dataset_world self ds attr nr rows w0 db0 Hs0) as [ds' ->].
  simpl. split; [by exists db0|]. by rewrite fs_lookup_write_ne.
Qed.

Hint Resolve still_new_uid still_read_dataset still_set_register
  still_write_dataset : pres.

Lemma still_destination e : preserves still (destination self e).
Proof.
  unfold destination, _attributes, _series_attributes, _study_attributes,
    _patient_attributes, from_first_file, _max_series_number,
    _max_instance_number.
  pres.
Qed.

Hint Resolve still_destination : pres.

Lemma still_files_to_series files e :
  preserves still (_files_to_series self files e).
Proof. unfold _files_to_series, _update_register. pres. Qed.

Lemma still_write_volume vol e multislice :
  preserves still (write_volume self vol e None multislice).
Proof. unfold write_volume, _update_register. pres. Qed.

End Untouched.

(** X15. A writing call touches no file but the files of new instances:
    whether [_files_to_series] returns or raises, and likewise
    [write_volume] without reference, for volumes of any number of
    dimensions, a path that is not [dbdicom/<uid>.dcm] under the folder of
    the object holds after the call what it held before. *)
Theorem writing_touches_new_files_only self files vol (e : Entity)
    multislice w db (q : string) :
  heap w !! self = Some db →
  (∀ k, q ≠ path_join (path db) (instance_path k)) →
  fs_lookup q (fs (_files_to_series self files e w).2) = fs_lookup q (fs w)
  ∧ fs_lookup q (fs (write_volume self vol e None multislice w).2)
    = fs_lookup q (fs w).
Proof.
  intros Hs Hq.
  assert (on_object self (path db) (λ _, True) w
          ∧ fs_lookup q (fs w) = fs_lookup q (fs w)) as Hw.
  { split; [|done]. by exists db. }
  split.
  - by apply (still_files_to_series self (path db) q w Hq files e w Hw).
  - by apply (still_write_volume self (path db) q w Hq vol e multislice w Hw).
Qed.

End WrittenFiles.

(** The source file of a copy in [demo_world] is not a file of a new
    instance. *)
Lemma writing_touches_new_files_only_witness :
  fs_lookup "db/a.dcm"
    (fs (@_files_to_series spec_services 0 ["db/a.dcm"; "db/b.dcm"]
           series_T2 demo_world).2)
  = fs_lookup "db/a.dcm" (fs demo_world)
  ∧ fs_lookup "db/a.dcm"
      (fs (@write_volume spec_services 0 volume4d series_T2 None false
             demo_world).2)
    = fs_lookup "db/a.dcm" (fs demo_world).
Proof.
  apply (@writing_touches_new_files_only spec_services 0
           ["db/a.dcm"; "db/b.dcm"] volume4d series_T2 false demo_world
           (mkDB "db" demo_register) "db/a.dcm").
  - reflexivity.
  - intros k. unfold instance_path, path_join. simpl. discriminate.
Defined.
